(** * leechy-torrent: wire codecs and the piece downloader

    A shallow embedding of the Go sources of the leech-only BitTorrent
    client (packages [bitfield], [message], [handshake], [peers],
    [client], [p2p] and [torrentfile]) together with the properties its
    specification states about them.

    The file has three parts: the program, one module per Go package,
    each function under the name it has in the source; facts about these
    definitions; and the specification, claim by claim.

    Conventions.
    - Go's [int] is the 64-bit two's-complement integer of the amd64 and
      arm64 builds; it is a [Z], and every arithmetic operation of the
      source is followed by [wrap_int].  [uint32] and [byte] conversions
      are the corresponding [mod].  The 32-bit builds are not covered.
    - A [[]byte] is a [list byte]; [len] is the length as a [Z].  A
      [[20]byte] is a [vec byte 20].
    - A Go [string] is a byte sequence, hence a Rocq [string].
    - A function that returns [(T, error)] returns a [result T]; a
      run-time panic is the third case of [result].  A function that
      writes through a pointer or a slice returns the new contents next
      to its result. *)

From Stdlib Require Import ZArith Lia List Bool Ascii String.

From Stdlib Require Import Strings.Byte.

From Stdlib Require Import DecimalString.

From stdpp Require Import base list vector strings gmap.

Local Open Scope Z_scope.

(** Boolean comparisons of the models, turned into the propositions [lia]
    works on. *)
Ltac zbool :=
  repeat match goal with
  | H : (_ >=? _) = _ |- _ => rewrite Z.geb_leb in H
  | H : (_ >? _) = _ |- _ => rewrite Z.gtb_ltb in H
  | H : (_ <? _) = true |- _ => apply Z.ltb_lt in H
  | H : (_ <? _) = false |- _ => apply Z.ltb_ge in H
  | H : (_ <=? _) = true |- _ => apply Z.leb_le in H
  | H : (_ <=? _) = false |- _ => apply Z.leb_gt in H
  | H : (_ =? _) = true |- _ => apply Z.eqb_eq in H
  | H : (_ =? _) = false |- _ => apply Z.eqb_neq in H
  end.

(** * The program *)

(** ** Machine integers *)

Module GoInt.

Definition int_min : Z := - 2 ^ 63.

Definition int_max : Z := 2 ^ 63 - 1.

(** Two's-complement wrap-around of a 64-bit signed integer. *)
Definition wrap_int (z : Z) : Z := (z + 2 ^ 63) mod 2 ^ 64 - 2 ^ 63.

Definition in_int (z : Z) : Prop := int_min <= z <= int_max.

Definition int_add (a b : Z) : Z := wrap_int (a + b).

Definition int_sub (a b : Z) : Z := wrap_int (a - b).

Definition int_mul (a b : Z) : Z := wrap_int (a * b).

(** [uint32(x)]: truncation to the low 32 bits. *)
Definition to_uint32 (z : Z) : Z := z mod 2 ^ 32.

End GoInt.

Export GoInt.

(** ** Bytes and slices *)

Definition byte_to_Z (b : byte) : Z := Z.of_N (Byte.to_N b).

(** [byte(x)]: the low eight bits. *)
Definition byte_of_Z (z : Z) : byte :=
  match Byte.of_N (Z.to_N (z mod 256)) with
  | Some b => b
  | None => x00
  end.

Definition len {A} (l : list A) : Z := Z.of_nat (length l).

(** [make([]byte, n)] for [0 <= n]: [n] zero bytes. *)
Definition make (n : Z) : list byte := replicate (Z.to_nat n) x00.

(** [copy(dst, src)]: overwrites the first [min(len dst, len src)] bytes of
    [dst]; the result is the new [dst] and the number of bytes copied. *)
Definition copy (dst src : list byte) : list byte * Z :=
  let n := Nat.min (length dst) (length src) in
  (take n src ++ drop n dst, Z.of_nat n).

(** [copy(buf[off:], src)] seen from [buf], for [0 <= off <= len buf]. *)
Definition copy_at (buf : list byte) (off : Z) (src : list byte) : list byte * Z :=
  let '(tail, n) := copy (drop (Z.to_nat off) buf) src in
  (take (Z.to_nat off) buf ++ tail, n).

(** [s[lo:hi]] for [0 <= lo <= hi <= len s]. *)
Definition slice {A} (s : list A) (lo hi : Z) : list A :=
  take (Z.to_nat (hi - lo)) (drop (Z.to_nat lo) s).

(** The same with the run-time bounds check: [None] is the panic. *)
Definition slice_checked {A} (s : list A) (lo hi : Z) : option (list A) :=
  if (0 <=? lo) && (lo <=? hi) && (hi <=? len s) then Some (slice s lo hi) else None.

(** ** encoding/binary, big endian

    The library functions the codecs call, written with the shifts and
    masks of their Go definitions. *)

Module BigEndian.

(** [PutUint32(b, v)]: the four bytes written into [b[0..3]]. *)
Definition PutUint32 (v : Z) : list byte :=
  [ byte_of_Z (Z.shiftr v 24); byte_of_Z (Z.shiftr v 16);
    byte_of_Z (Z.shiftr v 8); byte_of_Z v ].

(** [Uint32(b)] reads [b[0..3]]; it panics (here [None]) on a shorter slice. *)
Definition Uint32 (b : list byte) : option Z :=
  match b with
  | b0 :: b1 :: b2 :: b3 :: _ =>
      Some (Z.lor (Z.lor (Z.lor (byte_to_Z b3) (Z.shiftl (byte_to_Z b2) 8))
                         (Z.shiftl (byte_to_Z b1) 16))
                  (Z.shiftl (byte_to_Z b0) 24))
  | _ => None
  end.

(** [Uint16(b)] reads [b[0..1]]. *)
Definition Uint16 (b : list byte) : option Z :=
  match b with
  | b0 :: b1 :: _ => Some (Z.lor (byte_to_Z b1) (Z.shiftl (byte_to_Z b0) 8))
  | _ => None
  end.

End BigEndian.

(** ** Package bitfield *)

Module bitfield.

Definition Bitfield := list byte.

(** [b >> s] on a [byte], and [1 << s] at type [byte] (the untyped constant
    of a non-constant shift takes the type of the operand it is or-ed
    into, so bits shifted past bit 7 are lost).  Both are used with
    [s = 7 - offset], which lies in [0, 14] because [offset = index % 8]
    lies in [-7, 7]. *)
Definition shr_byte (b : byte) (s : Z) : Z := Z.shiftr (byte_to_Z b) s.

Definition shl_one_byte (s : Z) : Z := (Z.shiftl 1 s) mod 256.

(** Go's [/] truncates toward zero and [%] takes the sign of the dividend:
    [Z.quot] and [Z.rem]. *)
Definition HasPiece (bf : Bitfield) (index : Z) : bool :=
  let byteIndex := Z.quot index 8 in
  let offset := Z.rem index 8 in
  if (byteIndex <? 0) || (byteIndex >=? len bf) then false
  else
    match bf !! Z.to_nat byteIndex with
    | Some b =>
        let bitValue := shr_byte b (7 - offset) in
        Z.land bitValue 1 =? 1
    | None => false
    end.

Definition SetPiece (bf : Bitfield) (index : Z) : Bitfield :=
  let byteIndex := Z.quot index 8 in
  let offset := Z.rem index 8 in
  if (byteIndex <? 0) || (byteIndex >=? len bf) then bf
  else
    match bf !! Z.to_nat byteIndex with
    | Some b =>
        <[ Z.to_nat byteIndex :=
             byte_of_Z (Z.lor (byte_to_Z b) (shl_one_byte (7 - offset))) ]> bf
    | None => bf
    end.

End bitfield.

(** ** Results, errors and readers *)

(** The errors the modelled functions return.  Each constructor stands for
    one [fmt.Errorf] of the source or one error of [io.ReadFull]. *)
Inductive error : Type :=
| EOF                      (* io.ReadFull: nothing could be read *)
| ErrUnexpectedEOF         (* io.ReadFull: the stream ended in the middle *)
| ErrWrite                 (* net.Conn.Write failed *)
| ErrExpectedPiece         (* "expected 'piece' message, got ..." *)
| ErrPiecePayloadShort     (* "expected payload length of at least 8, got ..." *)
| ErrPieceIndex            (* "expected piece index ..., got ... instead" *)
| ErrBeginBeyondBuffer     (* "begin offset ... is way beyond buffer size ..." *)
| ErrDataTooLarge          (* "data too large[...] for offset ... with buffer size ..." *)
| ErrExpectedHave          (* "expected 'have' message, got ..." *)
| ErrHavePayloadLength     (* "expected payload length of 4, got ..." *)
| ErrPstrLenZero           (* "protocol id string length cannot be 0" *)
| ErrMalformedPeers        (* "received malformed peers" *)
| ErrMissingScheme         (* net/url: "missing protocol scheme" *)
| ErrUrlControlChar        (* net/url: "invalid control character in URL" *)
| ErrUrlUnsupported.       (* a URL outside the modelled subset of net/url *)

(** What a call produces: a value, a returned error, or a run-time panic
    (index or slice bounds out of range). *)
Inductive result (A : Type) : Type :=
| Ok (a : A)
| Err (e : error)
| Panic.

Arguments Ok {A} a.

Arguments Err {A} e.

Arguments Panic {A}.

Definition is_Err {A} (r : result A) : Prop := exists e, r = Err e.

(** An [io.Reader] over a finite byte stream: the bytes not yet read.  For
    a connection, the end of the list is the point where the peer stops
    sending and the read deadline expires. *)
Definition Reader := list byte.

(** [io.ReadFull(r, buf)] with [len buf = n]: exactly [n] bytes, or an
    error after consuming what was left. *)
Definition ReadFull (r : Reader) (n : Z) : result (list byte) * Reader :=
  if n <=? len r then (Ok (take (Z.to_nat n) r), drop (Z.to_nat n) r)
  else match r with
       | [] => (Err EOF, [])
       | _ => (Err ErrUnexpectedEOF, [])
       end.

(** The Go runtime allocates no object above [maxAlloc] bytes (2^48 on the
    64-bit platforms), so no byte slice is longer. *)
Definition max_alloc : Z := 2 ^ 48.

(** [PutUint32(buf[off:off+4], v)] seen from [buf]. *)
Definition put32 (buf : list byte) (off : Z) (v : Z) : list byte :=
  fst (copy_at buf off (BigEndian.PutUint32 v)).

(** ** Package message *)

Module message.

Definition MessageId := byte.

Definition MsgChoke : MessageId := x00.

Definition MsgUnchoke : MessageId := x01.

Definition MsgInterested : MessageId := x02.

Definition MsgNotInterested : MessageId := x03.

Definition MsgHave : MessageId := x04.

Definition MsgBitfield : MessageId := x05.

Definition MsgRequest : MessageId := x06.

Definition MsgPiece : MessageId := x07.

Definition MsgCancel : MessageId := x08.

Record Message : Type := { Id : MessageId; Payload : list byte }.

(** [msg.Serialize()]; a [nil] receiver ([None]) is the keep-alive.  The
    length is computed at type [uint32], as is the size of the buffer. *)
Definition Serialize (msg : option Message) : result (list byte) :=
  match msg with
  | None => Ok (make 4)
  | Some m =>
      let length := to_uint32 (int_add (len (Payload m)) 1) in
      let buf := make (to_uint32 (4 + length)) in
      if len buf <? 4 then Panic                    (* buf[:4] *)
      else
        let buf := put32 buf 0 length in
        if len buf <=? 4 then Panic                 (* buf[4] *)
        else
          let buf := <[ 4%nat := Id m ]> buf in
          Ok (fst (copy_at buf 5 (Payload m)))
  end.

(** [FormatRequestMsg(index, begin, length)] *)
Definition FormatRequestMsg (index begin length : Z) : Message :=
  let payload := make (4 * 3) in
  let payload := put32 payload 0 (to_uint32 index) in
  let payload := put32 payload 4 (to_uint32 begin) in
  let payload := put32 payload 8 (to_uint32 length) in
  {| Id := MsgRequest; Payload := payload |}.

(** [FormatHave(index)] *)
Definition FormatHave (index : Z) : Message :=
  let payload := make 4 in
  let payload := put32 payload 0 (to_uint32 index) in
  {| Id := MsgHave; Payload := payload |}.

(** [ParsePiece(index, dataBuf, msg)]: the returned pair and the contents
    of [dataBuf] after the call. *)
Definition ParsePiece (index : Z) (dataBuf : list byte) (msg : Message)
  : result Z * list byte :=
  if negb (Byte.eqb (Id msg) MsgPiece) then (Err ErrExpectedPiece, dataBuf)
  else if negb (len (Payload msg) >=? 8) then (Err ErrPiecePayloadShort, dataBuf)
  else
    match BigEndian.Uint32 (take 4 (Payload msg)) with
    | None => (Panic, dataBuf)
    | Some parsedIndex =>
        if negb (parsedIndex =? index) then (Err ErrPieceIndex, dataBuf)
        else
          let dataBufLen := len dataBuf in
          match BigEndian.Uint32 (take 4 (drop 4 (Payload msg))) with
          | None => (Panic, dataBuf)
          | Some begin =>
              if begin >=? dataBufLen then (Err ErrBeginBeyondBuffer, dataBuf)
              else
                let data := drop 8 (Payload msg) in
                let dataLen := len data in
                if int_add begin dataLen >? dataBufLen
                then (Err ErrDataTooLarge, dataBuf)
                else
                  let dataBuf' := fst (copy_at dataBuf begin data) in
                  (Ok dataLen, dataBuf')
          end
    end.

(** [ParseHave(msg)] *)
Definition ParseHave (msg : Message) : result Z :=
  if negb (Byte.eqb (Id msg) MsgHave) then Err ErrExpectedHave
  else if negb (len (Payload msg) =? 4) then Err ErrHavePayloadLength
  else
    match BigEndian.Uint32 (Payload msg) with
    | None => Panic
    | Some index => Ok index
    end.

(** [Read(reader)]: the message ([None] for a keep-alive) or the error,
    and the reader after the call. *)
Definition Read (reader : Reader) : result (option Message) * Reader :=
  match ReadFull reader 4 with
  | (Ok payloadLenBuf, reader) =>
      match BigEndian.Uint32 payloadLenBuf with
      | None => (Panic, reader)
      | Some payloadLen =>
          if payloadLen =? 0 then (Ok None, reader)
          else
            match ReadFull reader payloadLen with
            | (Ok msgBuf, reader) =>
                match msgBuf with
                | id :: payload => (Ok (Some {| Id := id; Payload := payload |}), reader)
                | [] => (Panic, reader)
                end
            | (Err e, reader) => (Err e, reader)
            | (Panic, reader) => (Panic, reader)
            end
      end
  | (Err e, reader) => (Err e, reader)
  | (Panic, reader) => (Panic, reader)
  end.

End message.

(** ** Package common: [Sha1Hash] is [[20]byte] *)

Definition Sha1Hash := vec byte 20.

(** [copy(h[:], src)] into a zero-valued [[20]byte]: the array and the
    number of bytes copied. *)
Definition copy_to_hash (src : list byte) : Sha1Hash * Z :=
  (fun_to_vec (fun i : fin 20 => default x00 (src !! fin_to_nat i)),
   Z.of_nat (Nat.min 20 (length src))).

(** ** Package handshake *)

Module handshake.

Record Handshake : Type := {
  Pstr : string;
  InfoHash : Sha1Hash;
  PeerId : Sha1Hash
}.

Definition New (infoHash peerId : Sha1Hash) : Handshake :=
  {| Pstr := "BitTorrent protocol"; InfoHash := infoHash; PeerId := peerId |}.

(** [hs.Serialize()].  [buf[0] = byte(len(hs.Pstr))] keeps the low eight
    bits of the length. *)
Definition Serialize (hs : Handshake) : list byte :=
  let pstr := list_byte_of_string (Pstr hs) in
  let bufLen := int_add (len pstr) 49 in
  let buf := make bufLen in
  let buf := <[ 0%nat := byte_of_Z (len pstr) ]> buf in
  let offset := 1 in
  let '(buf, n) := copy_at buf offset pstr in
  let offset := int_add offset n in
  let reservedBytes := [x00; x00; x00; x00; x00; x00; x00; x00] in
  let '(buf, n) := copy_at buf offset reservedBytes in
  let offset := int_add offset n in
  let '(buf, n) := copy_at buf offset (vec_to_list (InfoHash hs)) in
  let offset := int_add offset n in
  let '(buf, n) := copy_at buf offset (vec_to_list (PeerId hs)) in
  buf.

(** [Read(reader)] *)
Definition Read (reader : Reader) : result Handshake * Reader :=
  match ReadFull reader 1 with
  | (Ok rawProtocolIdLen, reader) =>
      match rawProtocolIdLen with
      | [] => (Panic, reader)
      | b :: _ =>
          let protocolIdLength := byte_to_Z b in
          if protocolIdLength =? 0 then (Err ErrPstrLenZero, reader)
          else
            match ReadFull reader (int_add 48 protocolIdLength) with
            | (Ok handshakeBuf, reader) =>
                let protocolIdStr :=
                  string_of_list_byte (slice handshakeBuf 0 protocolIdLength) in
                let offset := int_add protocolIdLength 8 in
                let '(infoHash, n) :=
                  copy_to_hash (slice handshakeBuf offset (int_add offset 20)) in
                let offset := int_add offset n in
                let '(peerId, _) :=
                  copy_to_hash (slice handshakeBuf offset (int_add offset 20)) in
                (Ok {| Pstr := protocolIdStr; InfoHash := infoHash; PeerId := peerId |},
                 reader)
            | (Err e, reader) => (Err e, reader)
            | (Panic, reader) => (Panic, reader)
            end
      end
  | (Err e, reader) => (Err e, reader)
  | (Panic, reader) => (Panic, reader)
  end.

End handshake.

(** ** Package peers *)

Module peers.

Record Peer : Type := { IP : list byte; Port : Z }.

Definition peersSize : Z := 6.

(** The body of [for i := 0; i != numPeers; i++], run [n] more times. *)
Fixpoint unmarshal_loop (n : nat) (i : Z) (peersBin : list byte) (peers : list Peer)
  : result (list Peer) :=
  match n with
  | O => Ok peers
  | S n' =>
      let offset := int_mul i peersSize in
      match slice_checked peersBin offset (int_add offset 4) with
      | None => Panic
      | Some ip =>
          let peers := alter (fun p => {| IP := ip; Port := Port p |}) (Z.to_nat i) peers in
          let offset := int_add offset 4 in
          match slice_checked peersBin offset (int_add offset 2) with
          | None => Panic
          | Some raw =>
              match BigEndian.Uint16 raw with
              | None => Panic
              | Some port =>
                  let peers :=
                    alter (fun p => {| IP := IP p; Port := port |}) (Z.to_nat i) peers in
                  unmarshal_loop n' (int_add i 1) peersBin peers
              end
          end
      end
  end.

(** [Unmarshal(peersBin)] *)
Definition Unmarshal (peersBin : list byte) : result (list Peer) :=
  let peersBinSize := len peersBin in
  let numPeers := Z.quot peersBinSize peersSize in
  if negb (Z.rem peersBinSize peersSize =? 0) then Err ErrMalformedPeers
  else
    let peers := replicate (Z.to_nat numPeers) {| IP := []; Port := 0 |} in
    unmarshal_loop (Z.to_nat numPeers) 0 peersBin peers.

End peers.

(** ** Errors of the session set-up

    [SplitPiecesHashes], [CompleteHandshake], [RecvBitField] and
    [client.New] build errors of their own beside the errors of their
    callees, which they return as they are. *)

Inductive setup_error : Type :=
| Passed (e : error)                 (* the error of a callee, returned as it is *)
| ErrMalformedPieces (bufLen : Z)    (* "received malformed pieces of length %d" *)
| ErrInfoHash                        (* "expected infohash %x but got %x" *)
| ErrExpectedBitfield.               (* "expected 'bitfield' message, got %s" *)

Inductive setup_result (A : Type) : Type :=
| SOk (a : A)
| SErr (e : setup_error)
| SPanic.

Arguments SOk {A} a.

Arguments SErr {A} e.

Arguments SPanic {A}.

(** [bytes.Equal(a, b)]: the same length and the same bytes. *)
Fixpoint bytes_Equal (a b : list byte) : bool :=
  match a, b with
  | [], [] => true
  | x :: a', y :: b' => Byte.eqb x y && bytes_Equal a' b'
  | _, _ => false
  end.

(** ** Package client: one peer connection *)

Module client.

(** A connection: the bytes the peer will still deliver, the frames written
    so far, and how many more writes succeed before the connection
    breaks.  Deadlines are not modelled; a read that finds the stream
    exhausted fails the way a timed-out read does. *)
Record NetConn : Type := {
  incoming : Reader;
  sent : list (list byte);
  writes_left : nat
}.

Record Client : Type := {
  Conn : NetConn;
  Choked : bool;
  Bitfield : bitfield.Bitfield;
  InfoHash : Sha1Hash;
  PeerId : Sha1Hash
}.

Definition with_Conn (c : Client) (conn : NetConn) : Client :=
  {| Conn := conn; Choked := Choked c; Bitfield := Bitfield c;
     InfoHash := InfoHash c; PeerId := PeerId c |}.

Definition with_Choked (c : Client) (b : bool) : Client :=
  {| Conn := Conn c; Choked := b; Bitfield := Bitfield c;
     InfoHash := InfoHash c; PeerId := PeerId c |}.

Definition with_Bitfield (c : Client) (bf : bitfield.Bitfield) : Client :=
  {| Conn := Conn c; Choked := Choked c; Bitfield := bf;
     InfoHash := InfoHash c; PeerId := PeerId c |}.

(** [conn.Write(b)] *)
Definition Write (conn : NetConn) (b : list byte) : result Z * NetConn :=
  match writes_left conn with
  | O => (Err ErrWrite, conn)
  | S k => (Ok (len b),
            {| incoming := incoming conn; sent := sent conn ++ [b]; writes_left := k |})
  end.

(** [client.Read()] *)
Definition Read (c : Client) : result (option message.Message) * Client :=
  let '(msg, rest) := message.Read (incoming (Conn c)) in
  (msg, with_Conn c {| incoming := rest; sent := sent (Conn c);
                       writes_left := writes_left (Conn c) |}).

(** [client.SendRequest(index, begin, length)] *)
Definition SendRequest (c : Client) (index begin length : Z) : result unit * Client :=
  let req := message.FormatRequestMsg index begin length in
  match message.Serialize (Some req) with
  | Ok frame =>
      let '(r, conn) := Write (Conn c) frame in
      match r with
      | Ok _ => (Ok tt, with_Conn c conn)
      | Err e => (Err e, with_Conn c conn)
      | Panic => (Panic, with_Conn c conn)
      end
  | Err e => (Err e, c)
  | Panic => (Panic, c)
  end.

(** [conn.Write(msg.Serialize())], the body the [Send...] methods below
    share. *)
Definition write_message (c : Client) (msg : message.Message) : result unit * Client :=
  match message.Serialize (Some msg) with
  | Ok frame =>
      let '(r, conn) := Write (Conn c) frame in
      match r with
      | Ok _ => (Ok tt, with_Conn c conn)
      | Err e => (Err e, with_Conn c conn)
      | Panic => (Panic, with_Conn c conn)
      end
  | Err e => (Err e, c)
  | Panic => (Panic, c)
  end.

(** [client.SendHave(index)] *)
Definition SendHave (c : Client) (index : Z) : result unit * Client :=
  write_message c (message.FormatHave index).

(** [client.SendInterested()]; the payload of the message is [nil]. *)
Definition SendInterested (c : Client) : result unit * Client :=
  write_message c {| message.Id := message.MsgInterested; message.Payload := [] |}.

(** [client.SendNotInterested()] *)
Definition SendNotInterested (c : Client) : result unit * Client :=
  write_message c {| message.Id := message.MsgNotInterested; message.Payload := [] |}.

(** [client.SendUnchoke()] *)
Definition SendUnchoke (c : Client) : result unit * Client :=
  write_message c {| message.Id := message.MsgUnchoke; message.Payload := [] |}.

(** A read from the connection: what the reader function returned, and
    the connection with the bytes it consumed taken off. *)
Definition read_conn {A} (conn : NetConn) (read : Reader -> A * Reader) : A * NetConn :=
  let '(a, rest) := read (incoming conn) in
  (a, {| incoming := rest; sent := sent conn; writes_left := writes_left conn |}).

(** [CompleteHandshake(conn, infoHash, peerId)]: the handshake of the peer
    or the error, and the connection after the call. *)
Definition CompleteHandshake (conn : NetConn) (infoHash peerId : Sha1Hash)
  : setup_result handshake.Handshake * NetConn :=
  let req := handshake.New infoHash peerId in
  let '(err, conn) := Write conn (handshake.Serialize req) in
  match err with
  | Err e => (SErr (Passed e), conn)
  | Panic => (SPanic, conn)
  | Ok _ =>
      let '(handshakeResponse, conn) := read_conn conn handshake.Read in
      match handshakeResponse with
      | Err e => (SErr (Passed e), conn)
      | Panic => (SPanic, conn)
      | Ok handshakeResponse =>
          if negb (bytes_Equal (vec_to_list (handshake.InfoHash handshakeResponse))
                               (vec_to_list infoHash))
          then (SErr ErrInfoHash, conn)
          else (SOk handshakeResponse, conn)
      end
  end.

(** [RecvBitField(conn)].  [message.Read] returns a [nil] message for a
    keep-alive, and [msg.Id] then dereferences it: a run-time panic. *)
Definition RecvBitField (conn : NetConn) : setup_result bitfield.Bitfield * NetConn :=
  let '(msg, conn) := read_conn conn message.Read in
  match msg with
  | Err e => (SErr (Passed e), conn)
  | Panic => (SPanic, conn)
  | Ok None => (SPanic, conn)
  | Ok (Some msg) =>
      if negb (Byte.eqb (message.Id msg) message.MsgBitfield)
      then (SErr ErrExpectedBitfield, conn)
      else (SOk (message.Payload msg), conn)
  end.

(** [New(peer, peerId, infoHash)].  [dialed] is what
    [net.DialTimeout("tcp", peer.String(), ...)] returned.  Beside the
    result, the model returns the connection as the call leaves it and
    whether [conn.Close()] was called on it ([None]: there is no
    connection).  The [Peer] field of the client, which no function
    reads, is not part of [Client]. *)
Definition New (dialed : result NetConn) (peerId infoHash : Sha1Hash)
  : setup_result Client * option (NetConn * bool) :=
  match dialed with
  | Err e => (SErr (Passed e), None)
  | Panic => (SPanic, None)
  | Ok conn =>
      let '(hs, conn) := CompleteHandshake conn infoHash peerId in
      match hs with
      | SErr e => (SErr e, Some (conn, true))
      | SPanic => (SPanic, Some (conn, false))
      | SOk _ =>
          let '(bf, conn) := RecvBitField conn in
          match bf with
          | SErr e => (SErr e, Some (conn, true))
          | SPanic => (SPanic, Some (conn, false))
          | SOk bf =>
              (SOk {| Conn := conn; Choked := true; Bitfield := bf;
                      InfoHash := infoHash; PeerId := peerId |},
               Some (conn, false))
          end
      end
  end.

End client.

(** ** Package p2p: the piece downloader *)

Module p2p.

Import client.

Definition MaxBlockSize : Z := 16384.

Definition MaxBacklog : Z := 8.

Record Torrent : Type := {
  Length : Z;
  PieceLength : Z;
  PiecesHashes : list Sha1Hash
}.

Record PieceWork : Type := {
  pwIndex : Z;
  pwHash : Sha1Hash;
  pwLength : Z
}.

Record PieceProgress : Type := {
  Index : Z;
  Client : client.Client;
  Buf : list byte;
  Downloaded : Z;
  Requested : Z;
  Backlog : Z
}.

(** [torrent.calculateBoundsForPiece(index)] *)
Definition calculateBoundsForPiece (torrent : Torrent) (index : Z) : Z * Z :=
  let start := int_mul index (PieceLength torrent) in
  let end_ := int_add start (PieceLength torrent) in
  let end_ := if end_ >? Length torrent then Length torrent else end_ in
  (start, end_).

(** [torrent.calculatePieceSize(index)] *)
Definition calculatePieceSize (torrent : Torrent) (index : Z) : Z :=
  let '(start, end_) := calculateBoundsForPiece torrent index in
  int_sub end_ start.

(** Assignments to the fields of the progress record. *)
Definition with_Client (st : PieceProgress) (cl : client.Client) : PieceProgress :=
  {| Index := Index st; Client := cl; Buf := Buf st; Downloaded := Downloaded st;
     Requested := Requested st; Backlog := Backlog st |}.

Definition with_Buf (st : PieceProgress) (buf : list byte) : PieceProgress :=
  {| Index := Index st; Client := Client st; Buf := buf; Downloaded := Downloaded st;
     Requested := Requested st; Backlog := Backlog st |}.

(** [state.ReadMessage()]: the returned error and the state after the
    call, together with what [client.Read] delivered. *)
Definition ReadMessage (state : PieceProgress)
  : result (option message.Message) * (result unit * PieceProgress) :=
  let '(msg, cl) := client.Read (Client state) in
  let state := with_Client state cl in
  (msg,
   match msg with
   | Err e => (Err e, state)
   | Panic => (Panic, state)
   | Ok None => (Ok tt, state)
   | Ok (Some m) =>
       if Byte.eqb (message.Id m) message.MsgChoke then
         (Ok tt, with_Client state (with_Choked cl true))
       else if Byte.eqb (message.Id m) message.MsgUnchoke then
         (Ok tt, with_Client state (with_Choked cl false))
       else if Byte.eqb (message.Id m) message.MsgHave then
         match message.ParseHave m with
         | Ok index =>
             (Ok tt, with_Client state
                       (with_Bitfield cl (bitfield.SetPiece (Bitfield cl) index)))
         | Err e => (Err e, state)
         | Panic => (Panic, state)
         end
       else if Byte.eqb (message.Id m) message.MsgPiece then
         match message.ParsePiece (Index state) (Buf state) m with
         | (Ok pieceSize, buf) =>
             (Ok tt, {| Index := Index state; Client := cl; Buf := buf;
                        Downloaded := int_add (Downloaded state) pieceSize;
                        Requested := Requested state;
                        Backlog := int_sub (Backlog state) 1 |})
         | (Err e, buf) => (Err e, with_Buf state buf)
         | (Panic, buf) => (Panic, with_Buf state buf)
         end
       else (Ok tt, state)
   end).

(** What a run of the downloader shows, step by step. *)
Inductive Label : Type :=
| LStart                                      (* the progress record, just built *)
| LSendRequest (begin blockSize : Z)          (* [SendRequest] is called *)
| LRequested                                  (* after [Backlog++; Requested += blockSize] *)
| LRead (msg : result (option message.Message)).  (* after [ReadMessage] *)

Definition Obs : Type := Label * PieceProgress.

(** A loop either finishes or exhausts the recursion budget of its model. *)
Inductive outcome (A : Type) : Type :=
| Done (a : A)
| OutOfFuel.

Arguments Done {A} a.

Arguments OutOfFuel {A}.

(** The inner loop
    [for state.Backlog != MaxBacklog && state.Requested < pw.Length]. *)
Fixpoint requestLoop (fuel : nat) (pw : PieceWork) (state : PieceProgress)
  : list Obs * outcome (result unit * PieceProgress) :=
  if negb (Backlog state =? MaxBacklog) && (Requested state <? pwLength pw) then
    match fuel with
    | O => ([], OutOfFuel)
    | S fuel' =>
        let blockSize := MaxBlockSize in
        let remainingBytes := int_sub (pwLength pw) (Requested state) in
        let blockSize := if remainingBytes <? blockSize then remainingBytes else blockSize in
        let sending := (LSendRequest (Requested state) blockSize, state) in
        let '(err, cl) :=
          client.SendRequest (Client state) (pwIndex pw) (Requested state) blockSize in
        match err with
        | Ok _ =>
            let state := {| Index := Index state; Client := cl; Buf := Buf state;
                            Downloaded := Downloaded state;
                            Requested := int_add (Requested state) blockSize;
                            Backlog := int_add (Backlog state) 1 |} in
            let '(tr, res) := requestLoop fuel' pw state in
            (sending :: (LRequested, state) :: tr, res)
        | Err e => ([sending], Done (Err e, with_Client state cl))
        | Panic => ([sending], Done (Panic, with_Client state cl))
        end
    end
  else ([], Done (Ok tt, state)).

(** The outer loop [for state.Downloaded < pw.Length]. *)
Fixpoint downloadLoop (fuel : nat) (pw : PieceWork) (state : PieceProgress)
  : list Obs * outcome (result unit * PieceProgress) :=
  if Downloaded state <? pwLength pw then
    match fuel with
    | O => ([], OutOfFuel)
    | S fuel' =>
        let '(tr1, res1) :=
          if negb (Choked (Client state))
          then requestLoop (Z.to_nat (pwLength pw - Requested state)) pw state
          else ([], Done (Ok tt, state)) in
        match res1 with
        | Done (Ok _, state) =>
            let '(msg, (err, state)) := ReadMessage state in
            match err with
            | Ok _ =>
                let '(tr2, res2) := downloadLoop fuel' pw state in
                (tr1 ++ (LRead msg, state) :: tr2, res2)
            | _ => (tr1 ++ [(LRead msg, state)], Done (err, state))
            end
        | _ => (tr1, res1)
        end
    end
  else ([], Done (Ok tt, state)).

(** [attemptDownloadPiece(torrentClient, pw)]: the trace of the attempt, and
    the returned buffer or error with the client as the attempt leaves it.
    [make] panics on a negative length and on one above [max_alloc]. *)
Definition attemptDownloadPiece (torrentClient : client.Client) (pw : PieceWork)
  : list Obs * outcome (result (list byte) * client.Client) :=
  if (pwLength pw <? 0) || (pwLength pw >? max_alloc) then ([], Done (Panic, torrentClient))
  else
    let state := {| Index := pwIndex pw; Client := torrentClient;
                    Buf := make (pwLength pw);
                    Downloaded := 0; Requested := 0; Backlog := 0 |} in
    let '(tr, res) :=
      downloadLoop (S (length (incoming (Conn torrentClient)))) pw state in
    ((LStart, state) :: tr,
     match res with
     | Done (Ok _, state) => Done (Ok (Buf state), Client state)
     | Done (Err e, state) => Done (Err e, Client state)
     | Done (Panic, state) => Done (Panic, Client state)
     | OutOfFuel => OutOfFuel
     end).

End p2p.

(** ** net/url and strconv

    The parts of Go's standard library that [BuildTrackerUrl] calls.  They
    are not code of this repository; the definitions follow the library's
    documented behaviour.  [QueryEscape], [Values.Encode] and [Itoa] are
    complete.  [Parse] and [URL.String] cover the URLs of the form
    [scheme://name:port/path?query] whose host name and path need no
    escaping (letters, digits and [-._~], and [/] in the path); an input
    outside this subset that the library might accept is reported as
    [ErrUrlUnsupported] by this model. *)

Module url.

Local Open Scope string_scope.

Definition in_range (lo hi c : ascii) : bool :=
  (N_of_ascii lo <=? N_of_ascii c)%N && (N_of_ascii c <=? N_of_ascii hi)%N.

Definition is_letter (c : ascii) : bool := in_range "a" "z" c || in_range "A" "Z" c.

Definition is_digit (c : ascii) : bool := in_range "0" "9" c.

(** [shouldEscape(c, encodeQueryComponent)]: everything but the unreserved
    characters. *)
Definition shouldEscape (c : ascii) : bool :=
  negb (is_letter c || is_digit c ||
        Ascii.eqb c "-" || Ascii.eqb c "_" || Ascii.eqb c "." || Ascii.eqb c "~").

(** ["0123456789ABCDEF"[n]] *)
Definition upperhex (n : N) : ascii :=
  match String.get (N.to_nat n) "0123456789ABCDEF" with
  | Some c => c
  | None => "0"%char
  end.

(** What [escape] emits for one byte of a query component. *)
Definition escape_byte (c : ascii) : string :=
  if Ascii.eqb c " " then "+"
  else if shouldEscape c then
    String "%" (String (upperhex (N.shiftr (N_of_ascii c) 4))
               (String (upperhex (N.land (N_of_ascii c) 15)) ""))
  else String c "".

Fixpoint QueryEscape (s : string) : string :=
  match s with
  | EmptyString => ""
  | String c s' => escape_byte c ++ QueryEscape s'
  end.

Definition unhex (c : ascii) : option N :=
  if is_digit c then Some (N_of_ascii c - N_of_ascii "0")%N
  else if in_range "a" "f" c then Some (N_of_ascii c - N_of_ascii "a" + 10)%N
  else if in_range "A" "F" c then Some (N_of_ascii c - N_of_ascii "A" + 10)%N
  else None.

(** [QueryUnescape]: the inverse transformation; [None] is the error. *)
Fixpoint QueryUnescape (s : string) : option string :=
  match s with
  | EmptyString => Some ""
  | String c rest =>
      if Ascii.eqb c "%" then
        match rest with
        | String h (String l rest') =>
            match unhex h, unhex l, QueryUnescape rest' with
            | Some a, Some b, Some r => Some (String (ascii_of_N (16 * a + b)) r)
            | _, _, _ => None
            end
        | _ => None
        end
      else
        match QueryUnescape rest with
        | Some r => Some (String (if Ascii.eqb c "+" then " "%char else c) r)
        | None => None
        end
  end.

(** [url.Values] is [map[string][]string]. *)
Definition Values := gmap string (list string).

(** [slices.Sort(keys)]: ascending, bytewise. *)
Fixpoint insert_sorted (k : string) (ks : list string) : list string :=
  match ks with
  | [] => [k]
  | k' :: ks' => if String.leb k k' then k :: ks else k' :: insert_sorted k ks'
  end.

Definition sort_strings (ks : list string) : list string :=
  fold_right insert_sorted [] ks.

(** [v.Encode()]: for each key in sorted order and each of its values,
    [key=value], the components separated by [&]. *)
Definition Encode (v : Values) : string :=
  let keys := sort_strings (map fst (map_to_list v)) in
  fold_left
    (fun buf k =>
       let vs := default [] (v !! k) in
       let keyEscaped := QueryEscape k in
       fold_left
         (fun buf val =>
            let buf := if (0 <? String.length buf)%nat then buf ++ "&" else buf in
            buf ++ keyEscaped ++ "=" ++ QueryEscape val)
         vs buf)
    keys "".

Record URL : Type := {
  Scheme : string;
  Host : string;
  Path : string;
  RawQuery : string
}.

Definition with_RawQuery (u : URL) (q : string) : URL :=
  {| Scheme := Scheme u; Host := Host u; Path := Path u; RawQuery := q |}.

(** [getScheme]: the scheme and the rest, [None] for the error
    "missing protocol scheme".  A string that is not of the form
    [scheme:rest] has the empty scheme. *)
Fixpoint getScheme_from (i : nat) (seen rest whole : string) : option (string * string) :=
  match rest with
  | EmptyString => Some ("", whole)
  | String c rest' =>
      if is_letter c then getScheme_from (S i) (seen ++ String c "") rest' whole
      else if is_digit c || Ascii.eqb c "+" || Ascii.eqb c "-" || Ascii.eqb c "." then
        match i with
        | O => Some ("", whole)
        | S _ => getScheme_from (S i) (seen ++ String c "") rest' whole
        end
      else if Ascii.eqb c ":" then
        match i with
        | O => None
        | S _ => Some (seen, rest')
        end
      else Some ("", whole)
  end.

Definition getScheme (rawURL : string) : option (string * string) :=
  getScheme_from 0 "" rawURL rawURL.

Definition to_lower (c : ascii) : ascii :=
  if in_range "A" "Z" c then ascii_of_N (N_of_ascii c + 32) else c.

Fixpoint ToLower (s : string) : string :=
  match s with
  | EmptyString => ""
  | String c s' => String (to_lower c) (ToLower s')
  end.

(** [strings.Cut(s, sep)] for a one-byte separator. *)
Fixpoint cut (sep : ascii) (s : string) : string * option string :=
  match s with
  | EmptyString => ("", None)
  | String c s' =>
      if Ascii.eqb c sep then ("", Some s')
      else let '(a, b) := cut sep s' in (String c a, b)
  end.

Fixpoint all_chars (f : ascii -> bool) (s : string) : bool :=
  match s with
  | EmptyString => true
  | String c s' => f c && all_chars f s'
  end.

(** [stringContainsCTLByte]: a byte below [0x20], or [0x7f]. *)
Definition is_ctl (c : ascii) : bool :=
  (N_of_ascii c <? 32)%N || (N_of_ascii c =? 127)%N.

(** The characters the model lets through in a host name and in a path:
    those that [Parse] stores and [String] prints unchanged. *)
Definition name_char (c : ascii) : bool :=
  is_letter c || is_digit c || Ascii.eqb c "-" || Ascii.eqb c "." ||
  Ascii.eqb c "_" || Ascii.eqb c "~".

Definition path_char (c : ascii) : bool := name_char c || Ascii.eqb c "/".

(** Splits [host/path] at the first [/]. *)
Fixpoint split_authority (s : string) : string * string :=
  match s with
  | EmptyString => ("", "")
  | String c s' =>
      if Ascii.eqb c "/" then ("", s)
      else let '(h, p) := split_authority s' in (String c h, p)
  end.

(** [url.Parse(rawURL)] on the modelled subset: no fragment, no user
    information, a host of the form [name] or [name:port]. *)
Definition Parse (rawURL : string) : result URL :=
  if negb (all_chars (fun c => negb (is_ctl c)) rawURL) then Err ErrUrlControlChar
  else if negb (all_chars (fun c => negb (Ascii.eqb c "#")) rawURL) then Err ErrUrlUnsupported
  else
    match getScheme rawURL with
    | None => Err ErrMissingScheme
    | Some (scheme, rest) =>
        let scheme := ToLower scheme in
        let '(rest, query) := cut "?" rest in
        match rest with
        | String "/" (String "/" authority) =>
            let '(host, path) := split_authority authority in
            let '(name, port) := cut ":" host in
            if (0 <? String.length scheme)%nat && (0 <? String.length name)%nat
               && all_chars name_char name && all_chars is_digit (default "" port)
               && all_chars path_char path
            then Ok {| Scheme := scheme; Host := host; Path := path;
                       RawQuery := default "" query |}
            else Err ErrUrlUnsupported
        | _ => Err ErrUrlUnsupported
        end
    end.

(** [u.String()] for a URL of the modelled subset. *)
Definition String_ (u : URL) : string :=
  Scheme u ++ ":" ++ "//" ++ Host u ++ Path u ++
  (if (0 <? String.length (RawQuery u))%nat then "?" ++ RawQuery u else "").

(** [strconv.Itoa] *)
Definition Itoa (i : Z) : string := NilZero.string_of_int (Z.to_int i).

End url.

(** ** Package torrentfile: the tracker request *)

Module torrentfile.

Local Open Scope string_scope.

Record TorrentFile : Type := {
  Announce : string;
  InfoHash : Sha1Hash;
  PiecesHashes : list Sha1Hash;
  PieceLength : Z;      (* uint32 *)
  Length : Z;           (* uint32 *)
  Name : string
}.

(** [string(h[:])] *)
Definition hash_string (h : Sha1Hash) : string := string_of_list_byte (vec_to_list h).

(** The [url.Values] literal of [BuildTrackerUrl]. *)
Definition tracker_params (torrFile : TorrentFile) (peerId : Sha1Hash) (port : Z)
  : url.Values :=
  <[ "info_hash" := [hash_string (InfoHash torrFile)] ]>
  (<[ "peer_id" := [hash_string peerId] ]>
  (<[ "port" := [url.Itoa port] ]>
  (<[ "uploaded" := ["0"] ]>
  (<[ "downloaded" := ["0"] ]>
  (<[ "compact" := ["1"] ]>
  (<[ "left" := [url.Itoa (Length torrFile)] ]> ∅)))))).

(** [torrFile.BuildTrackerUrl(peerId, port)] *)
Definition BuildTrackerUrl (torrFile : TorrentFile) (peerId : Sha1Hash) (port : Z)
  : result string :=
  match url.Parse (Announce torrFile) with
  | Ok base =>
      let params := tracker_params torrFile peerId port in
      let base := url.with_RawQuery base (url.Encode params) in
      Ok (url.String_ base)
  | Err e => Err e
  | Panic => Panic
  end.

(** The [info] dictionary of the metainfo file. *)
Record BencodeInfo : Type := {
  infoName : string;
  infoLength : Z;        (* uint32 *)
  infoPieceLength : Z;   (* uint32 *)
  Pieces : string
}.

Definition hashLen : Z := 20.

(** [copy(dest, src)] with [dest = hashes[i][:]]: the array after the copy
    and the number of bytes copied. *)
Definition copy_into_hash (dest : Sha1Hash) (src : list byte) : Sha1Hash * Z :=
  (fun_to_vec (fun k : fin 20 => default (dest !!! k) (src !! fin_to_nat k)),
   Z.of_nat (Nat.min 20 (length src))).

(** The body of [for i := 0; i != numHashes; i++], run [n] more times. *)
Fixpoint split_loop (n : nat) (i : Z) (buf : list byte) (hashes : list Sha1Hash)
  : setup_result (list Sha1Hash) :=
  match n with
  | O => SOk hashes
  | S n' =>
      if ((i <? 0) || (i >=? len hashes))%Z then SPanic          (* hashes[i] *)
      else
        match hashes !! Z.to_nat i with
        | None => SPanic
        | Some dest =>
            let start := int_mul i hashLen in
            let end_ := int_mul (int_add i 1) hashLen in
            match slice_checked buf start end_ with
            | None => SPanic                                    (* buf[start:end] *)
            | Some src =>
                let '(dest, _) := copy_into_hash dest src in
                split_loop n' (int_add i 1) buf (<[ Z.to_nat i := dest ]> hashes)
            end
        end
  end.

(** [info.SplitPiecesHashes()] *)
Definition SplitPiecesHashes (info : BencodeInfo) : setup_result (list Sha1Hash) :=
  let buf := list_byte_of_string (Pieces info) in
  let bufLen := len buf in
  if negb (Z.rem bufLen hashLen =? 0)%Z then SErr (ErrMalformedPieces bufLen)
  else
    let numHashes := Z.quot bufLen hashLen in
    let hashes := replicate (Z.to_nat numHashes) (vreplicate 20 x00) in
    split_loop (Z.to_nat numHashes) 0 buf hashes.

End torrentfile.

(** * Facts about the model *)

(** ** Machine integers *)

Section int_facts.

Lemma wrap_int_id z : in_int z -> wrap_int z = z.
Proof.
  unfold in_int, int_min, int_max, wrap_int. intros H.
  rewrite Z.mod_small; lia.
Qed.

Lemma wrap_int_range z : in_int (wrap_int z).
Proof.
  unfold in_int, int_min, int_max, wrap_int.
  pose proof (Z.mod_pos_bound (z + 2 ^ 63) (2 ^ 64) ltac:(lia)). lia.
Qed.

End int_facts.

(** ** Bytes and slices *)

(** The byte at index [i], as a number ([0] outside the slice). *)
Definition byte_at (s : list byte) (i : Z) : Z :=
  match s !! Z.to_nat i with
  | Some b => byte_to_Z b
  | None => 0
  end.

(** The big-endian number held by the four bytes at [off]. *)
Definition be32_at (p : list byte) (off : Z) : Z :=
  byte_at p off * 2 ^ 24 + byte_at p (off + 1) * 2 ^ 16 +
  byte_at p (off + 2) * 2 ^ 8 + byte_at p (off + 3).

Lemma byte_to_Z_range b : 0 <= byte_to_Z b < 256.
Proof.
  unfold byte_to_Z. pose proof (Byte.to_N_bounded b). lia.
Qed.

Lemma byte_of_to_Z b : byte_of_Z (byte_to_Z b) = b.
Proof.
  unfold byte_of_Z. rewrite Z.mod_small by apply byte_to_Z_range.
  unfold byte_to_Z. rewrite N2Z.id, Byte.of_to_N. reflexivity.
Qed.

Lemma byte_to_of_Z z : byte_to_Z (byte_of_Z z) = z mod 256.
Proof.
  unfold byte_of_Z, byte_to_Z.
  pose proof (Z.mod_pos_bound z 256 ltac:(lia)) as Hr.
  destruct (Byte.of_N (Z.to_N (z mod 256))) as [b|] eqn:E.
  - apply Byte.to_of_N in E. rewrite E. lia.
  - apply Byte.of_N_None_iff in E. lia.
Qed.

Lemma len_nonneg {A} (l : list A) : 0 <= len l.
Proof. unfold len. lia. Qed.

Lemma len_app {A} (l k : list A) : len (l ++ k) = len l + len k.
Proof. unfold len. rewrite length_app. lia. Qed.

Lemma len_make n : 0 <= n -> len (make n) = n.
Proof. intros. unfold len, make. rewrite length_replicate. lia. Qed.

(** A copy that fits overwrites exactly the bytes [off .. off + len src). *)
Lemma copy_at_fits buf off src :
  0 <= off -> off + len src <= len buf ->
  copy_at buf off src =
  (take (Z.to_nat off) buf ++ src ++ drop (Z.to_nat (off + len src)) buf, len src).
Proof.
  unfold len. intros Hoff Hfit. unfold copy_at, copy.
  rewrite length_drop.
  replace (Nat.min (length buf - Z.to_nat off) (length src)) with (length src) by lia.
  rewrite firstn_all, drop_drop.
  replace (Z.to_nat (off + Z.of_nat (length src))) with (Z.to_nat off + length src)%nat by lia.
  reflexivity.
Qed.

Lemma len_copy_at buf off src :
  0 <= off <= len buf -> len (fst (copy_at buf off src)) = len buf.
Proof.
  unfold len, copy_at, copy. intros H. cbn [fst].
  rewrite !length_app, length_take, length_take, !length_drop. lia.
Qed.

Lemma slice_middle {A} (pre mid post : list A) lo hi :
  lo = len pre -> hi = lo + len mid -> slice (pre ++ mid ++ post) lo hi = mid.
Proof.
  intros -> ->. unfold slice, len.
  rewrite Nat2Z.id.
  replace (Z.to_nat (Z.of_nat (length pre) + Z.of_nat (length mid) - Z.of_nat (length pre)))
    with (length mid) by lia.
  rewrite drop_app_length, take_app_length. reflexivity.
Qed.

Lemma slice_prefix {A} (mid post : list A) hi :
  hi = len mid -> slice (mid ++ post) 0 hi = mid.
Proof. intros ->. apply (slice_middle [] mid post); unfold len; cbn [length]; lia. Qed.

Lemma slice_checked_in {A} (s : list A) lo hi :
  0 <= lo -> lo <= hi -> hi <= len s -> slice_checked s lo hi = Some (slice s lo hi).
Proof.
  intros H1 H2 H3. unfold slice_checked.
  destruct (0 <=? lo) eqn:E1; [|zbool; lia].
  destruct (lo <=? hi) eqn:E2; [|zbool; lia].
  destruct (hi <=? len s) eqn:E3; [|zbool; lia].
  reflexivity.
Qed.

Lemma slice_two (s : list byte) lo :
  0 <= lo -> lo + 2 <= len s ->
  exists b0 b1, slice s lo (lo + 2) = [b0; b1] /\
                byte_at s lo = byte_to_Z b0 /\ byte_at s (lo + 1) = byte_to_Z b1.
Proof.
  unfold len. intros Hlo Hhi.
  destruct (lookup_lt_is_Some_2 s (Z.to_nat lo) ltac:(lia)) as [b0 H0].
  destruct (lookup_lt_is_Some_2 s (S (Z.to_nat lo)) ltac:(lia)) as [b1 H1].
  exists b0, b1. unfold slice, byte_at.
  replace (Z.to_nat (lo + 2 - lo)) with 2%nat by lia.
  replace (Z.to_nat (lo + 1)) with (S (Z.to_nat lo)) by lia.
  rewrite H0, H1. split; [|split; reflexivity].
  rewrite (take_S_r _ 1 b1) by (rewrite lookup_drop; rewrite <- H1; f_equal; lia).
  rewrite (take_S_r _ 0 b0) by (rewrite lookup_drop; rewrite <- H0; f_equal; lia).
  reflexivity.
Qed.

(** Filling a zeroed buffer from the left. *)
Lemma copy_at_zeros (pre : list byte) (m : nat) (src : list byte) off :
  off = len pre -> (length src <= m)%nat ->
  copy_at (pre ++ replicate m x00) off src =
  ((pre ++ src) ++ replicate (m - length src) x00, len src).
Proof.
  intros -> Hm.
  rewrite copy_at_fits
    by (unfold len; rewrite ?length_app, ?length_replicate; lia).
  unfold len. rewrite Nat2Z.id.
  replace (Z.to_nat (Z.of_nat (length pre) + Z.of_nat (length src)))
    with (length pre + length src)%nat by lia.
  rewrite take_app_length, <- drop_drop, drop_app_length, drop_replicate.
  rewrite <- app_assoc. reflexivity.
Qed.

(** ** Big-endian numbers *)

Section BigEndian_facts.
Import BigEndian.

Lemma lor_shiftl_add a h k :
  0 <= k -> 0 <= a < 2 ^ k -> Z.lor a (Z.shiftl h k) = a + h * 2 ^ k.
Proof.
  intros Hk Ha. rewrite <- Z.shiftl_mul_pow2 by lia.
  symmetry. apply Z.add_nocarry_lor.
  apply Z.bits_inj'. intros n Hn.
  rewrite Z.land_spec, Z.bits_0.
  destruct (Z.lt_ge_cases n k) as [Hlt|Hge].
  - rewrite (Z.shiftl_spec_low h k n) by lia. apply andb_false_r.
  - assert (Z.testbit a n = false) as ->; [|reflexivity].
    destruct (Z.eq_dec a 0) as [->|Hne]; [apply Z.bits_0|].
    apply Z.bits_above_log2; [lia|].
    apply Z.lt_le_trans with k; [|lia].
    apply Z.log2_lt_pow2; lia.
Qed.

Lemma Uint32_arith b0 b1 b2 b3 rest :
  Uint32 (b0 :: b1 :: b2 :: b3 :: rest) =
  Some (byte_to_Z b0 * 2 ^ 24 + byte_to_Z b1 * 2 ^ 16 + byte_to_Z b2 * 2 ^ 8 + byte_to_Z b3).
Proof.
  pose proof (byte_to_Z_range b0). pose proof (byte_to_Z_range b1).
  pose proof (byte_to_Z_range b2). pose proof (byte_to_Z_range b3).
  unfold Uint32.
  rewrite (lor_shiftl_add (byte_to_Z b3) _ 8) by lia.
  rewrite (lor_shiftl_add _ _ 16) by lia.
  rewrite (lor_shiftl_add _ _ 24) by lia.
  f_equal. lia.
Qed.

Lemma Uint32_range b v : Uint32 b = Some v -> 0 <= v < 2 ^ 32.
Proof.
  destruct b as [|b0 [|b1 [|b2 [|b3 rest]]]]; try discriminate.
  rewrite Uint32_arith. intros [= <-].
  pose proof (byte_to_Z_range b0). pose proof (byte_to_Z_range b1).
  pose proof (byte_to_Z_range b2). pose proof (byte_to_Z_range b3). lia.
Qed.

Lemma Uint16_arith b0 b1 rest :
  Uint16 (b0 :: b1 :: rest) = Some (byte_to_Z b0 * 2 ^ 8 + byte_to_Z b1).
Proof.
  pose proof (byte_to_Z_range b0). pose proof (byte_to_Z_range b1).
  unfold Uint16. rewrite (lor_shiftl_add (byte_to_Z b1) _ 8) by lia.
  f_equal. lia.
Qed.

(** Reading back what [PutUint32] wrote. *)
Lemma Uint32_PutUint32 v rest :
  0 <= v < 2 ^ 32 -> Uint32 (PutUint32 v ++ rest) = Some v.
Proof.
  intros Hv. unfold PutUint32. cbn [app]. rewrite Uint32_arith.
  rewrite !byte_to_of_Z, !Z.shiftr_div_pow2 by lia.
  f_equal.
  change (2 ^ 24) with 16777216. change (2 ^ 16) with 65536. change (2 ^ 8) with 256.
  change (2 ^ 32) with 4294967296 in Hv.
  pose proof (Z.div_mod v 256 ltac:(lia)).
  pose proof (Z.div_mod v 65536 ltac:(lia)).
  pose proof (Z.div_mod v 16777216 ltac:(lia)).
  pose proof (Z.mod_pos_bound v 256 ltac:(lia)).
  pose proof (Z.mod_pos_bound v 65536 ltac:(lia)).
  pose proof (Z.mod_pos_bound v 16777216 ltac:(lia)).
  rewrite (Z.mod_small (v / 16777216)) by (split; [apply Z.div_pos; lia | apply Z.div_lt_upper_bound; lia]).
  assert (v / 65536 = 256 * (v / 16777216) + (v / 65536) mod 256) as E2.
  { replace (v / 16777216) with (v / 65536 / 256) by (rewrite Z.div_div by lia; reflexivity).
    apply Z.div_mod. lia. }
  assert (v / 256 = 256 * (v / 65536) + (v / 256) mod 256) as E1.
  { replace (v / 65536) with (v / 256 / 256) by (rewrite Z.div_div by lia; reflexivity).
    apply Z.div_mod. lia. }
  lia.
Qed.

Lemma length_PutUint32 v : length (PutUint32 v) = 4%nat.
Proof. reflexivity. Qed.

End BigEndian_facts.

(** ** Bitfield *)

Section bitfield_facts.
Import bitfield.

(** The shift count of both methods is never negative (a negative count
    would panic). *)
Lemma rem8_neg index : index < 0 -> -8 < Z.rem index 8 <= 0.
Proof.
  intros H. replace index with (- - index) by lia.
  rewrite Z.rem_opp_l by lia.
  pose proof (Z.rem_bound_pos (- index) 8 ltac:(lia) ltac:(lia)). lia.
Qed.

Lemma shift_count_range index : 0 <= 7 - Z.rem index 8 <= 14.
Proof.
  destruct (Z.le_gt_cases 0 index).
  - pose proof (Z.rem_bound_pos index 8 ltac:(lia) ltac:(lia)). lia.
  - pose proof (rem8_neg index ltac:(lia)). lia.
Qed.

Lemma in_bounds_lookup (bf : Bitfield) k :
  0 <= k < len bf -> exists b, bf !! Z.to_nat k = Some b.
Proof.
  unfold len. intros H.
  destruct (lookup_lt_is_Some_2 bf (Z.to_nat k) ltac:(lia)) as [b Hb]. eauto.
Qed.

Lemma land_one_testbit x s :
  0 <= s -> (Z.land (Z.shiftr x s) 1 =? 1) = Z.testbit x s.
Proof.
  intros Hs. change 1 with (Z.ones 1) at 1.
  rewrite Z.land_ones by lia. change (2 ^ 1) with 2.
  rewrite <- Z.bit0_mod, Z.shiftr_spec by lia. rewrite Z.add_0_l.
  destruct (Z.testbit x s); reflexivity.
Qed.

Lemma shr_byte_high b s : 8 <= s -> shr_byte b s = 0.
Proof.
  intros Hs. unfold shr_byte. rewrite Z.shiftr_div_pow2 by lia.
  pose proof (byte_to_Z_range b).
  apply Z.div_small. split; [lia|].
  apply Z.lt_le_trans with (2 ^ 8); [simpl; lia|].
  apply Z.pow_le_mono_r; lia.
Qed.

Lemma shl_one_byte_high s : 8 <= s -> shl_one_byte s = 0.
Proof.
  intros Hs. unfold shl_one_byte. rewrite Z.shiftl_1_l.
  replace s with (8 + (s - 8)) by lia. rewrite Z.pow_add_r by lia.
  change (2 ^ 8) with 256. rewrite Z.mul_comm. apply Z.mod_mul. lia.
Qed.

(** An index in range selects byte [index / 8] and bit [7 - index mod 8]. *)
Lemma HasPiece_in_range (bf : Bitfield) index b :
  0 <= index < 8 * len bf ->
  bf !! Z.to_nat (index / 8) = Some b ->
  HasPiece bf index = Z.testbit (byte_to_Z b) (7 - index mod 8).
Proof.
  intros Hi Hb. unfold HasPiece.
  rewrite Z.quot_div_nonneg, Z.rem_mod_nonneg by lia.
  pose proof (Z.mod_pos_bound index 8 ltac:(lia)).
  assert (0 <= index / 8 < len bf) as Hq.
  { split; [apply Z.div_pos; lia | apply Z.div_lt_upper_bound; lia]. }
  destruct (index / 8 <? 0) eqn:E1; [lia|].
  destruct (index / 8 >=? len bf) eqn:E2; [lia|].
  cbn [orb]. rewrite Hb. unfold shr_byte. apply land_one_testbit. lia.
Qed.

Lemma HasPiece_out_of_range (bf : Bitfield) index :
  index < 0 \/ 8 * len bf <= index -> HasPiece bf index = false.
Proof.
  intros Hi. unfold HasPiece.
  destruct ((Z.quot index 8 <? 0) || (Z.quot index 8 >=? len bf)) eqn:E; [reflexivity|].
  apply orb_false_iff in E as [E1 E2].
  destruct (bf !! Z.to_nat (Z.quot index 8)) as [b|]; [|reflexivity].
  destruct Hi as [Hneg|Hbig].
  - pose proof (rem8_neg index ltac:(lia)).
    pose proof (Z.quot_rem' index 8).
    assert (Z.quot index 8 = 0) as Hq0 by lia.
    rewrite shr_byte_high by lia. reflexivity.
  - pose proof (len_nonneg bf).
    rewrite Z.quot_div_nonneg in E2 by lia.
    assert (len bf <= index / 8) by (apply Z.div_le_lower_bound; lia). lia.
Qed.

Lemma SetPiece_out_of_range (bf : Bitfield) index :
  index < 0 \/ 8 * len bf <= index -> SetPiece bf index = bf.
Proof.
  intros Hi. unfold SetPiece.
  destruct ((Z.quot index 8 <? 0) || (Z.quot index 8 >=? len bf)) eqn:E; [reflexivity|].
  apply orb_false_iff in E as [E1 E2].
  destruct (bf !! Z.to_nat (Z.quot index 8)) as [b|] eqn:Hb; [|reflexivity].
  destruct Hi as [Hneg|Hbig].
  - pose proof (rem8_neg index ltac:(lia)).
    pose proof (Z.quot_rem' index 8).
    rewrite shl_one_byte_high by lia.
    rewrite Z.lor_0_r, byte_of_to_Z. apply list_insert_id. exact Hb.
  - pose proof (len_nonneg bf).
    rewrite Z.quot_div_nonneg in E2 by lia.
    assert (len bf <= index / 8) by (apply Z.div_le_lower_bound; lia). lia.
Qed.

End bitfield_facts.

(** ** Readers *)

Lemma ReadFull_app (bs rest : list byte) n :
  n = len bs -> ReadFull (bs ++ rest) n = (Ok bs, rest).
Proof.
  intros ->. unfold ReadFull. rewrite len_app.
  pose proof (len_nonneg rest).
  destruct (_ <=? _) eqn:E; [|zbool; lia].
  unfold len. rewrite Nat2Z.id, take_app_length, drop_app_length. reflexivity.
Qed.

Lemma ReadFull_shrinks r n bs r' :
  0 <= n -> ReadFull r n = (Ok bs, r') -> len r' + n = len r.
Proof.
  unfold ReadFull. intros Hn.
  destruct (n <=? len r) eqn:E.
  - intros [= <- <-]. zbool. unfold len in *. rewrite length_drop. lia.
  - destruct r; discriminate.
Qed.

Lemma ReadFull_le r n res r' : ReadFull r n = (res, r') -> len r' <= len r.
Proof.
  unfold ReadFull. destruct (n <=? len r) eqn:E.
  - intros [= <- <-]. unfold len. rewrite length_drop. lia.
  - destruct r; intros [= <- <-]; apply len_nonneg.
Qed.

Lemma put32_fits buf off v :
  0 <= off -> off + 4 <= len buf ->
  put32 buf off v =
  take (Z.to_nat off) buf ++ BigEndian.PutUint32 v ++ drop (Z.to_nat (off + 4)) buf.
Proof.
  intros Hoff Hfit. unfold put32.
  rewrite copy_at_fits by (unfold len in *; rewrite ?length_PutUint32; lia).
  reflexivity.
Qed.

(** ** Messages *)

Section message_facts.
Import message.

(** A payload that fits the 32-bit length prefix is framed as
    length, id, payload. *)
Lemma message_Serialize_fits m :
  len (Payload m) <= 2 ^ 32 - 6 ->
  Serialize (Some m) =
  Ok (BigEndian.PutUint32 (len (Payload m) + 1) ++ Id m :: Payload m).
Proof.
  intros Hlen. pose proof (len_nonneg (Payload m)) as Hnn.
  unfold Serialize, int_add.
  rewrite wrap_int_id by (unfold in_int, int_min, int_max; lia).
  unfold to_uint32. rewrite (Z.mod_small (len (Payload m) + 1)) by lia.
  rewrite Z.mod_small by lia.
  set (v := len (Payload m) + 1).
  unfold make. replace (Z.to_nat (4 + v)) with (5 + length (Payload m))%nat
    by (unfold v, len; lia).
  cbn [replicate Nat.add].
  set (zeros := replicate (length (Payload m)) x00).
  assert (length zeros = length (Payload m)) as Hz by apply length_replicate.
  rewrite put32_fits by (unfold len; cbn [length]; lia).
  change (Z.to_nat 0) with 0%nat. change (Z.to_nat (0 + 4)) with 4%nat.
  cbn [take drop app BigEndian.PutUint32 list_insert insert].
  unfold len at 1 2. cbn [length].
  destruct (_ <? 4) eqn:E1; [zbool; lia|].
  destruct (_ <=? 4) eqn:E2; [zbool; lia|].
  rewrite copy_at_fits by (unfold len; cbn [length]; lia).
  replace (Z.to_nat (5 + len (Payload m))) with (5 + length (Payload m))%nat
    by (unfold len; lia).
  change (Z.to_nat 5) with 5%nat.
  cbn [take drop app Nat.add fst].
  rewrite drop_ge by lia. rewrite app_nil_r. reflexivity.
Qed.

(** [Read] consumes exactly one frame of the stream. *)
Lemma message_Read_frame (id : byte) (payload rest : list byte) :
  len payload + 1 < 2 ^ 32 ->
  Read (BigEndian.PutUint32 (len payload + 1) ++ id :: payload ++ rest) =
  (Ok (Some {| Id := id; Payload := payload |}), rest).
Proof.
  intros Hlen. pose proof (len_nonneg payload) as Hnn.
  unfold Read, ReadFull.
  set (v := len payload + 1).
  rewrite len_app. unfold len at 1. rewrite length_PutUint32.
  destruct (4 <=? _) eqn:E; [|zbool; pose proof (len_nonneg (id :: payload ++ rest)); lia].
  change (Z.to_nat 4) with 4%nat.
  rewrite take_app_length' by reflexivity.
  rewrite drop_app_length' by reflexivity.
  rewrite <- (app_nil_r (BigEndian.PutUint32 v)) at 1.
  rewrite Uint32_PutUint32 by (unfold v; lia).
  destruct (v =? 0) eqn:E0; [zbool; unfold v in *; lia|].
  change (id :: payload ++ rest) with ((id :: payload) ++ rest).
  rewrite len_app.
  assert (len (id :: payload) = v) as Hv by (unfold v, len; cbn [length]; lia).
  destruct (v <=? _) eqn:E3; [|zbool; pose proof (len_nonneg rest); lia].
  rewrite take_app_length' by (unfold len in Hv; lia).
  rewrite drop_app_length' by (unfold len in Hv; lia).
  reflexivity.
Qed.

(** The fields of a piece message, as the wire format lays them out. *)
Definition piece_index (m : Message) : Z := be32_at (Payload m) 0.

Definition piece_begin (m : Message) : Z := be32_at (Payload m) 4.

Definition piece_block (m : Message) : list byte := drop 8 (Payload m).

Lemma message_Read_le r res r' : Read r = (res, r') -> len r' <= len r.
Proof.
  unfold Read.
  destruct (ReadFull r 4) as [[bs|e|] r1] eqn:E1; try (intros [= <- <-]; eapply ReadFull_le; eassumption).
  apply ReadFull_le in E1.
  destruct (BigEndian.Uint32 bs) as [n|]; [|intros [= <- <-]; assumption].
  destruct (n =? 0); [intros [= <- <-]; assumption|].
  destruct (ReadFull r1 n) as [[ms|e|] r2] eqn:E2.
  - apply ReadFull_le in E2. destruct ms; intros [= <- <-]; lia.
  - apply ReadFull_le in E2. intros [= <- <-]; lia.
  - apply ReadFull_le in E2. intros [= <- <-]; lia.
Qed.

(** A message that is not a keep-alive takes at least five bytes. *)
Lemma message_Read_msg r m r' :
  Read r = (Ok (Some m), r') -> len r' + 5 + len (Payload m) = len r.
Proof.
  unfold Read.
  destruct (ReadFull r 4) as [[bs|e|] r1] eqn:E1; try discriminate.
  apply ReadFull_shrinks in E1; [|lia].
  destruct (BigEndian.Uint32 bs) as [n|] eqn:En; [|discriminate].
  apply Uint32_range in En.
  destruct (n =? 0) eqn:E0; [discriminate|].
  destruct (ReadFull r1 n) as [[ms|e|] r2] eqn:E2; try discriminate.
  pose proof E2 as E2'. apply ReadFull_shrinks in E2; [|lia].
  unfold ReadFull in E2'. destruct (n <=? len r1) eqn:En1; [|destruct r1; discriminate].
  injection E2' as E2a E2b. zbool.
  destruct ms as [|id payload]; [discriminate|]. intros [= <- <-]. cbn [Payload].
  assert (len (id :: payload) = n) as Hn.
  { rewrite <- E2a. unfold len in *. rewrite length_take. lia. }
  unfold len in *. cbn [length] in Hn. lia.
Qed.

Lemma message_Read_ok r x r' : Read r = (Ok x, r') -> len r' + 4 <= len r.
Proof.
  unfold Read.
  destruct (ReadFull r 4) as [[bs|e|] r1] eqn:E1; try discriminate.
  apply ReadFull_shrinks in E1; [|lia].
  destruct (BigEndian.Uint32 bs) as [n|] eqn:En; [|discriminate].
  destruct (n =? 0); [intros [= <- <-]; lia|].
  destruct (ReadFull r1 n) as [[ms|e|] r2] eqn:E2; try discriminate.
  apply ReadFull_le in E2. destruct ms; [discriminate|]. intros [= <- <-]. lia.
Qed.

End message_facts.

(** ** Handshake *)

Lemma copy_to_hash_vec (h : Sha1Hash) (rest : list byte) :
  copy_to_hash (vec_to_list h ++ rest) = (h, 20).
Proof.
  unfold copy_to_hash. f_equal.
  - apply vec_eq. intros i. rewrite lookup_fun_to_vec.
    rewrite lookup_app_l by (rewrite length_vec_to_list; apply fin_to_nat_lt).
    assert (vec_to_list h !! fin_to_nat i = Some (h !!! i)) as ->
      by (apply vlookup_lookup; reflexivity).
    reflexivity.
  - rewrite length_app, length_vec_to_list. lia.
Qed.

Section handshake_facts.
Import handshake.

(** The frame: length byte, protocol string, eight zero bytes, the two
    hashes. *)
Lemma handshake_Serialize_layout hs :
  len (list_byte_of_string (Pstr hs)) <= max_alloc ->
  Serialize hs =
  byte_of_Z (len (list_byte_of_string (Pstr hs))) ::
    list_byte_of_string (Pstr hs) ++ replicate 8 x00 ++
    vec_to_list (InfoHash hs) ++ vec_to_list (PeerId hs).
Proof.
  unfold max_alloc. intros Hlen. unfold Serialize. cbv zeta.
  set (pstr := list_byte_of_string (Pstr hs)) in *.
  pose proof (len_nonneg pstr) as Hnn.
  pose proof (length_vec_to_list (InfoHash hs)) as Hi.
  pose proof (length_vec_to_list (PeerId hs)) as Hp.
  unfold int_add at 1. rewrite wrap_int_id by (unfold in_int, int_min, int_max; lia).
  unfold make. replace (Z.to_nat (len pstr + 49)) with (S (length pstr + 48)) by (unfold len; lia).
  cbn [replicate list_insert insert].
  change (?b :: replicate ?n x00) with ([b] ++ replicate n x00).
  rewrite copy_at_zeros by (unfold len; cbn [length]; lia).
  unfold int_add. rewrite wrap_int_id by (unfold in_int, int_min, int_max; lia).
  rewrite copy_at_zeros
    by (unfold len; rewrite ?length_app; cbn [length]; lia).
  rewrite wrap_int_id by (unfold in_int, int_min, int_max, len in *; cbn [length]; lia).
  rewrite copy_at_zeros
    by (unfold len; rewrite ?length_app; cbn [length]; lia).
  rewrite wrap_int_id by (unfold in_int, int_min, int_max, len in *; cbn [length]; lia).
  rewrite copy_at_zeros
    by (unfold len; rewrite ?length_app; cbn [length]; lia).
  match goal with |- context [replicate ?k x00] =>
    replace k with 0%nat by (cbn [length]; lia) end.
  cbn [replicate app]. rewrite app_nil_r, <- !app_assoc. reflexivity.
Qed.

Lemma handshake_Read_Serialize hs rest :
  1 <= len (list_byte_of_string (Pstr hs)) <= 255 ->
  Read (Serialize hs ++ rest) = (Ok hs, rest).
Proof.
  intros Hlen. rewrite handshake_Serialize_layout by (unfold max_alloc; lia).
  set (pstr := list_byte_of_string (Pstr hs)) in *.
  pose proof (length_vec_to_list (InfoHash hs)) as Hi.
  pose proof (length_vec_to_list (PeerId hs)) as Hp.
  unfold Read.
  change ((?b :: ?l) ++ rest) with ([b] ++ (l ++ rest)).
  rewrite ReadFull_app by reflexivity.
  rewrite byte_to_of_Z, Z.mod_small by lia.
  destruct (_ =? 0) eqn:E; [zbool; lia|]. clear E.
  unfold int_add. rewrite !wrap_int_id by (unfold in_int, int_min, int_max; lia).
  rewrite ReadFull_app
    by (unfold len in *; rewrite !length_app, length_replicate; lia).
  rewrite slice_prefix by reflexivity.
  rewrite (app_assoc pstr), (slice_middle (pstr ++ replicate 8 x00) (InfoHash hs))
    by (unfold len; rewrite ?length_app, ?length_replicate; lia).
  rewrite <- (app_nil_r (vec_to_list (InfoHash hs))) at 1.
  rewrite copy_to_hash_vec.
  rewrite wrap_int_id by (unfold in_int, int_min, int_max; lia).
  rewrite (app_assoc _ (vec_to_list (InfoHash hs))).
  rewrite wrap_int_id by (unfold in_int, int_min, int_max; lia).
  rewrite <- (app_nil_r (vec_to_list (PeerId hs))) at 1.
  rewrite (slice_middle _ (PeerId hs) [])
    by (unfold len; rewrite ?length_app, ?length_replicate; lia).
  rewrite <- (app_nil_r (vec_to_list (PeerId hs))) at 1.
  rewrite copy_to_hash_vec.
  unfold pstr. rewrite string_of_list_byte_of_string.
  destruct hs; reflexivity.
Qed.

End handshake_facts.

(** ** Compact peer list *)

Section peers_facts.
Import peers.

(** The peer the compact format describes at position [k]. *)
Definition compact_peer (peersBin : list byte) (k : Z) : Peer :=
  {| IP := slice peersBin (6 * k) (6 * k + 4);
     Port := byte_at peersBin (6 * k + 4) * 256 + byte_at peersBin (6 * k + 5) |}.

(** The loop fills the entries [i .. i + n) and leaves the others. *)
Lemma unmarshal_loop_spec (bin : list byte) :
  len bin <= max_alloc ->
  forall (n : nat) (i : Z) (peers : list Peer),
    0 <= i -> 6 * (i + Z.of_nat n) <= len bin ->
    (Z.to_nat i + n <= length peers)%nat ->
    exists peers',
      unmarshal_loop n i bin peers = Ok peers' /\
      length peers' = length peers /\
      forall k : nat,
        peers' !! k =
        if decide (Z.to_nat i <= k < Z.to_nat i + n)%nat
        then Some (compact_peer bin (Z.of_nat k)) else peers !! k.
Proof.
  unfold max_alloc. intros Hmax. induction n as [|n IH]; intros i peers Hi Hfit Hlen.
  - exists peers. split; [reflexivity|]. split; [reflexivity|].
    intros k. destruct (decide _); [lia|reflexivity].
  - cbn [unmarshal_loop]. unfold peersSize, int_mul, int_add.
    rewrite !wrap_int_id by (unfold in_int, int_min, int_max; lia).
    rewrite slice_checked_in by lia.
    rewrite ?wrap_int_id by (unfold in_int, int_min, int_max; lia).
    rewrite slice_checked_in by lia.
    destruct (slice_two bin (i * 6 + 4) ltac:(lia) ltac:(lia)) as (b0 & b1 & Hs & Hb0 & Hb1).
    rewrite Hs, Uint16_arith.
    rewrite ?wrap_int_id by (unfold in_int, int_min, int_max; lia).
    match goal with |- context [unmarshal_loop n (i + 1) bin ?ps] => set (peers1 := ps) end.
    assert (length peers1 = length peers) as Hl1
      by (unfold peers1; rewrite !length_alter; reflexivity).
    destruct (IH (i + 1) peers1 ltac:(lia) ltac:(lia) ltac:(lia)) as (peers' & Hrun & Hlen' & Hk).
    exists peers'. split; [exact Hrun|]. split; [lia|].
    intros k. rewrite Hk.
    destruct (decide (Z.to_nat (i + 1) <= k < Z.to_nat (i + 1) + n)%nat) as [Hin|Hout].
    + destruct (decide _); [reflexivity|lia].
    + destruct (decide (k = Z.to_nat i)) as [->|Hne].
      * destruct (decide _); [|lia].
        destruct (lookup_lt_is_Some_2 peers (Z.to_nat i) ltac:(lia)) as [p Hp].
        unfold peers1. rewrite !list_lookup_alter_eq, Hp. cbn.
        unfold compact_peer. rewrite Z2Nat.id by lia.
        f_equal. f_equal.
        -- f_equal; lia.
        -- replace (6 * i + 4) with (i * 6 + 4) by lia.
           replace (6 * i + 5) with (i * 6 + 4 + 1) by lia.
           rewrite Hb0, Hb1. change (2 ^ 8) with 256. reflexivity.
      * destruct (decide _); [lia|].
        unfold peers1. rewrite !list_lookup_alter_ne by lia. reflexivity.
Qed.

End peers_facts.

(** ** The piece downloader *)

Section client_facts.
Import client.

Lemma SendRequest_keeps c index begin length r c' :
  SendRequest c index begin length = (r, c') ->
  incoming (Conn c') = incoming (Conn c) /\ Choked c' = Choked c.
Proof.
  unfold SendRequest.
  destruct (message.Serialize _) as [frame|e|].
  - unfold Write. destruct (writes_left (Conn c)); intros [= <- <-]; split; reflexivity.
  - intros [= <- <-]. split; reflexivity.
  - intros [= <- <-]. split; reflexivity.
Qed.

End client_facts.

Section p2p_facts.
Import client p2p.

(** What [ReadMessage] does to the counters: nothing, or the bookkeeping of
    one accepted piece message. *)
Lemma ReadMessage_counters st msg err st' :
  ReadMessage st = (msg, (err, st')) ->
  Index st' = Index st /\ Requested st' = Requested st /\
  message.Read (incoming (Conn (Client st))) = (msg, incoming (Conn (Client st'))) /\
  ((Downloaded st' = Downloaded st /\ Backlog st' = Backlog st /\
    forall m, msg = Ok (Some m) -> message.Id m = message.MsgPiece -> err <> Ok tt) \/
   (exists m, msg = Ok (Some m) /\ message.Id m = message.MsgPiece /\ err = Ok tt /\
      message.ParsePiece (Index st) (Buf st) m = (Ok (len (drop 8 (message.Payload m))), Buf st') /\
      Downloaded st' = int_add (Downloaded st) (len (drop 8 (message.Payload m))) /\
      Backlog st' = int_sub (Backlog st) 1)).
Proof.
  unfold ReadMessage, client.Read.
  destruct (message.Read (incoming (Conn (Client st)))) as [msg0 rest] eqn:ERead.
  destruct msg0 as [[m|]|e|]; cbn [with_Client Index Client Buf Downloaded Requested Backlog];
    try (intros [= <- <- <-]; cbn; (repeat split; try reflexivity); left; (repeat split);
         intros; discriminate).
  destruct (Byte.eqb (message.Id m) message.MsgChoke) eqn:E0;
    [|destruct (Byte.eqb (message.Id m) message.MsgUnchoke) eqn:E1;
      [|destruct (Byte.eqb (message.Id m) message.MsgHave) eqn:E4;
        [destruct (message.ParseHave m)
        |destruct (Byte.eqb (message.Id m) message.MsgPiece) eqn:E7]]];
    try (intros [= <- <- <-]; cbn; (repeat split; try reflexivity); left; (repeat split);
         intros m' [= <-] Hid; rewrite Hid in *; discriminate).
  apply Byte.byte_dec_bl in E7.
  destruct (message.ParsePiece (Index st) (Buf st) m) as [[n|e|] buf] eqn:EP;
    intros [= <- <- <-]; cbn; (repeat split; try reflexivity);
    try (left; repeat split; intros; discriminate).
  right. exists m.
  assert (n = len (drop 8 (message.Payload m))) as ->.
  { revert EP. unfold message.ParsePiece.
    repeat match goal with
           | |- context [if ?c then _ else _] => destruct c
           | |- context [match ?x with Some _ => _ | None => _ end] => destruct x
           end; intros [= <- <-] || discriminate; reflexivity. }
  repeat split; try assumption; reflexivity.
Qed.

(** *** What is claimed of the counters *)

(** No request is sent while choked: at each call of [SendRequest] the flag
    is false. *)
Definition sends_unchoked (o : Obs) : Prop :=
  match fst o with
  | LSendRequest _ _ => Choked (Client (snd o)) = false
  | _ => True
  end.

(** The invariant the specification states for a piece attempt. *)
Definition progress_inv (pw : PieceWork) (st : PieceProgress) : Prop :=
  Downloaded st <= Requested st <= pwLength pw /\ 0 <= Backlog st <= MaxBacklog.

(** The part of it that holds whatever the peer sends. *)
Definition request_inv (pw : PieceWork) (st : PieceProgress) : Prop :=
  0 <= Requested st <= pwLength pw /\ Backlog st <= MaxBacklog.

(** [request_inv] with the bound that keeps [Backlog--] from wrapping: the
    backlog drops by one per piece message, and every message uses up
    bytes of the stream. *)
Definition safe_inv (pw : PieceWork) (st : PieceProgress) : Prop :=
  request_inv pw st /\
  int_min + len (incoming (Conn (Client st))) <= Backlog st.

(** *** Requests and their answers *)

(** A request still waiting for its piece message: begin and length. *)
Definition Request : Type := Z * Z.

(** Removes the first request equal to [r]; [None] when there is none. *)
Fixpoint remove_request (r : Request) (out : list Request) : option (list Request) :=
  match out with
  | [] => None
  | r' :: out' =>
      if (fst r =? fst r') && (snd r =? snd r') then Some out'
      else match remove_request r out' with
           | Some rest => Some (r' :: rest)
           | None => None
           end
  end.

(** The outstanding requests after one observation: a request sent is
    added, a piece message must carry the index of the piece and answer
    an outstanding request (same begin, block of the requested length),
    which it removes.  [None]: a piece message that answers no request. *)
Definition track (idx : Z) (out : list Request) (o : Obs) : option (list Request) :=
  match fst o with
  | LSendRequest b s => Some ((b, s) :: out)
  | LRead (Ok (Some m)) =>
      if Byte.eqb (message.Id m) message.MsgPiece then
        if (8 <=? len (message.Payload m)) && (piece_index m =? idx)
        then remove_request (piece_begin m, len (piece_block m)) out
        else None
      else Some out
  | _ => Some out
  end.

Fixpoint run_track (idx : Z) (out : list Request) (tr : list Obs) : option (list Request) :=
  match tr with
  | [] => Some out
  | o :: tr' =>
      match track idx out o with
      | Some out' => run_track idx out' tr'
      | None => None
      end
  end.

(** Every piece message of the trace answers an outstanding request. *)
Definition answered (idx : Z) (tr : list Obs) : Prop := run_track idx [] tr <> None.

Fixpoint sum_lengths (out : list Request) : Z :=
  match out with
  | [] => 0
  | r :: out' => snd r + sum_lengths out'
  end.

(** How the counters relate to the outstanding requests as long as the
    peer only answers requests. *)
Definition ghost (st : PieceProgress) (out : list Request) : Prop :=
  Downloaded st + sum_lengths out = Requested st /\
  Backlog st = len out /\
  Forall (fun r => 0 <= snd r) out /\
  0 <= Downloaded st.

(** [progress_inv] holds at every observation up to the first piece
    message that answers no request. *)
Fixpoint holds_while_answered (idx : Z) (pw : PieceWork) (out : list Request) (tr : list Obs)
  : Prop :=
  match tr with
  | [] => True
  | o :: tr' =>
      match track idx out o with
      | None => True
      | Some out' => progress_inv pw (snd o) /\ holds_while_answered idx pw out' tr'
      end
  end.

Lemma sum_lengths_nonneg out : Forall (fun r : Request => 0 <= snd r) out -> 0 <= sum_lengths out.
Proof. induction 1; cbn [sum_lengths]; lia. Qed.

Lemma remove_request_spec r out out' :
  remove_request r out = Some out' ->
  sum_lengths out = snd r + sum_lengths out' /\ len out = len out' + 1 /\
  (Forall (fun r => 0 <= snd r) out -> Forall (fun r => 0 <= snd r) out').
Proof.
  revert out'. induction out as [|r' out IH]; intros out'; cbn [remove_request]; [discriminate|].
  destruct ((fst r =? fst r') && (snd r =? snd r')) eqn:E.
  - intros [= <-]. apply andb_true_iff in E as [E1 E2]. zbool.
    cbn [sum_lengths]. unfold len. cbn [length].
    split; [lia|]. split; [lia|]. intros H. inversion H; assumption.
  - destruct (remove_request r out) as [rest|]; [|discriminate].
    intros [= <-]. destruct (IH rest eq_refl) as (Hs & Hl & Hf).
    cbn [sum_lengths] in *. unfold len in *. cbn [length].
    split; [lia|]. split; [lia|]. intros H. inversion H; subst. constructor; auto.
Qed.

Lemma ghost_progress pw st out :
  ghost st out -> request_inv pw st -> progress_inv pw st.
Proof.
  intros (Hs & Hb & Hf & Hd) [HR HB]. pose proof (sum_lengths_nonneg out Hf).
  pose proof (len_nonneg out). unfold progress_inv. lia.
Qed.

Lemma hwa_app idx pw tr1 : forall out tr2,
  holds_while_answered idx pw out tr1 ->
  (forall out', run_track idx out tr1 = Some out' -> holds_while_answered idx pw out' tr2) ->
  holds_while_answered idx pw out (tr1 ++ tr2).
Proof.
  induction tr1 as [|o tr1 IH]; intros out tr2 H1 H2; cbn [app].
  - apply H2. reflexivity.
  - cbn [holds_while_answered run_track] in *.
    destruct (track idx out o) as [out1|]; [|exact I].
    destruct H1 as [Ho H1]. split; [exact Ho|]. apply IH; assumption.
Qed.

Lemma hwa_prefix idx pw tr1 : forall out tr2,
  holds_while_answered idx pw out (tr1 ++ tr2) ->
  run_track idx out tr1 <> None ->
  Forall (fun o => progress_inv pw (snd o)) tr1.
Proof.
  induction tr1 as [|o tr1 IH]; intros out tr2 H Hans; [constructor|].
  cbn [app holds_while_answered run_track] in *.
  destruct (track idx out o) as [out1|]; [|congruence].
  destruct H as [Ho H]. constructor; [exact Ho|]. eapply IH; eassumption.
Qed.

(** *** One read *)

Lemma ReadMessage_safe pw st msg err st' :
  safe_inv pw st -> ReadMessage st = (msg, (err, st')) -> safe_inv pw st'.
Proof.
  intros [[HR HB] HL] Hrm.
  apply ReadMessage_counters in Hrm as (_ & HReq & HRead & Hcase).
  pose proof (message_Read_le _ _ _ HRead) as Hle.
  pose proof (len_nonneg (incoming (Conn (Client st')))) as Hnn.
  unfold safe_inv, request_inv. rewrite HReq.
  destruct Hcase as [(HD & HBk & _)|(m & -> & _ & _ & _ & HD & HBk)].
  - rewrite HBk. lia.
  - apply message_Read_msg in HRead. pose proof (len_nonneg (message.Payload m)).
    rewrite HBk. unfold int_sub, MaxBacklog in *.
    rewrite wrap_int_id by (unfold in_int, int_min, int_max in *; lia).
    unfold int_min in *. lia.
Qed.

Lemma ReadMessage_ghost pw st out msg err st' :
  pwLength pw <= max_alloc -> safe_inv pw st -> ghost st out ->
  ReadMessage st = (msg, (err, st')) ->
  match track (Index st) out (LRead msg, st') with
  | None => True
  | Some out' => progress_inv pw st' /\ (err = Ok tt -> ghost st' out')
  end.
Proof.
  unfold max_alloc. intros HL Hsafe Hg Hrm.
  pose proof (ReadMessage_safe pw _ _ _ _ Hsafe Hrm) as [Hreq' _].
  destruct Hsafe as [[HR HB] _].
  apply ReadMessage_counters in Hrm as (_ & HReq & _ & Hcase).
  destruct Hg as (Hs & Hb & Hf & Hd).
  pose proof (sum_lengths_nonneg out Hf) as Hsum.
  destruct Hcase as [(HD & HBk & Hnp)|(m & -> & Hid & -> & _ & HD & HBk)].
  - assert (ghost st' out) as Hg' by (unfold ghost; rewrite HD, HBk, HReq; auto).
    destruct (track (Index st) out (LRead msg, st')) as [out'|] eqn:Et; [|exact I].
    split; [eapply ghost_progress; eassumption|].
    intros ->. unfold track in Et. cbn [fst] in Et.
    destruct msg as [[m|]|e|]; try (injection Et as <-; exact Hg').
    destruct (Byte.eqb (message.Id m) message.MsgPiece) eqn:E7;
      [|injection Et as <-; exact Hg'].
    apply Byte.byte_dec_bl in E7. exfalso. exact (Hnp m eq_refl E7 eq_refl).
  - unfold track. cbn [fst]. rewrite Hid. change (Byte.eqb message.MsgPiece message.MsgPiece) with true.
    cbn match.
    destruct ((8 <=? len (message.Payload m)) && (piece_index m =? Index st)); [|exact I].
    destruct (remove_request _ out) as [out'|] eqn:Er; [|exact I].
    apply remove_request_spec in Er as (Hsum' & Hlen' & Hf'). cbn [snd] in Hsum'.
    unfold piece_block in *.
    pose proof (len_nonneg (drop 8 (message.Payload m))) as Hbl.
    pose proof (len_nonneg out') as Hol.
    pose proof (sum_lengths_nonneg out' (Hf' Hf)) as Hsum2.
    assert (ghost st' out') as Hg'.
    { unfold ghost. rewrite HD, HBk, HReq, Hb. unfold int_add, int_sub, MaxBacklog in *.
      rewrite !wrap_int_id by (unfold in_int, int_min, int_max; lia).
      repeat split; try lia. apply Hf'. exact Hf. }
    split; [eapply ghost_progress; eassumption|]. intros _. exact Hg'.
Qed.

(** *** The request loop *)

(** The pieces of one turn of the inner loop, named. *)
Definition request_guard (pw : PieceWork) (st : PieceProgress) : bool :=
  negb (Backlog st =? MaxBacklog) && (Requested st <? pwLength pw).

Definition block_size (pw : PieceWork) (st : PieceProgress) : Z :=
  let remainingBytes := int_sub (pwLength pw) (Requested st) in
  if remainingBytes <? MaxBlockSize then remainingBytes else MaxBlockSize.

Definition after_request (pw : PieceWork) (st : PieceProgress) (cl : client.Client)
  : PieceProgress :=
  {| Index := Index st; Client := cl; Buf := Buf st; Downloaded := Downloaded st;
     Requested := int_add (Requested st) (block_size pw st);
     Backlog := int_add (Backlog st) 1 |}.

Definition sending (pw : PieceWork) (st : PieceProgress) : Obs :=
  (LSendRequest (Requested st) (block_size pw st), st).

Lemma requestLoop_unfold fuel pw st :
  requestLoop (S fuel) pw st =
  if request_guard pw st then
    let '(err, cl) :=
      SendRequest (Client st) (pwIndex pw) (Requested st) (block_size pw st) in
    match err with
    | Ok _ =>
        let '(tr, res) := requestLoop fuel pw (after_request pw st cl) in
        (sending pw st :: (LRequested, after_request pw st cl) :: tr, res)
    | Err e => ([sending pw st], Done (Err e, with_Client st cl))
    | Panic => ([sending pw st], Done (Panic, with_Client st cl))
    end
  else ([], Done (Ok tt, st)).
Proof. reflexivity. Qed.

(** The arithmetic of one request: the block is between 1 and
    [MaxBlockSize] bytes, it fits the piece, and nothing wraps. *)
Lemma request_step pw st cl :
  0 <= pwLength pw <= max_alloc -> safe_inv pw st -> request_guard pw st = true ->
  incoming (Conn cl) = incoming (Conn (Client st)) ->
  0 < block_size pw st <= MaxBlockSize /\
  Requested (after_request pw st cl) = Requested st + block_size pw st /\
  Backlog (after_request pw st cl) = Backlog st + 1 /\
  safe_inv pw (after_request pw st cl).
Proof.
  unfold max_alloc, request_guard. intros HL [[HR HB] HLo] Hg Hinc.
  apply andb_true_iff in Hg as [Eb Er]. apply negb_true_iff in Eb. zbool.
  pose proof (len_nonneg (incoming (Conn (Client st)))) as Hnn.
  assert (int_sub (pwLength pw) (Requested st) = pwLength pw - Requested st) as Hrem
    by (apply wrap_int_id; unfold in_int, int_min, int_max; lia).
  assert (0 < block_size pw st <= MaxBlockSize /\
          block_size pw st <= pwLength pw - Requested st) as (Hbs1 & Hbs2).
  { unfold block_size. cbv zeta. rewrite Hrem. unfold MaxBlockSize.
    destruct (_ <? 16384) eqn:E; zbool; lia. }
  unfold MaxBlockSize, MaxBacklog in *.
  assert (Requested (after_request pw st cl) = Requested st + block_size pw st) as HR1
    by (apply wrap_int_id; unfold in_int, int_min, int_max; lia).
  assert (Backlog (after_request pw st cl) = Backlog st + 1) as HB1
    by (apply wrap_int_id; unfold in_int, int_min, int_max in *; lia).
  repeat split; try lia.
  - rewrite HB1. unfold MaxBacklog. lia.
  - rewrite HB1. cbn [after_request Client]. rewrite Hinc. lia.
Qed.

(** Induction over the runs of the inner loop from a state that satisfies
    [safe_inv]: the loop ends, or runs out of budget, or a send fails, or
    a request is sent and the loop goes on. *)
Lemma requestLoop_cases pw
    (P : nat -> PieceProgress -> list Obs -> outcome (result unit * PieceProgress) -> Prop) :
  0 <= pwLength pw <= max_alloc ->
  (forall fuel st, safe_inv pw st -> request_guard pw st = false ->
                   P fuel st [] (Done (Ok tt, st))) ->
  (forall st, safe_inv pw st -> request_guard pw st = true -> P O st [] OutOfFuel) ->
  (forall fuel st r cl,
      safe_inv pw st -> request_guard pw st = true ->
      SendRequest (Client st) (pwIndex pw) (Requested st) (block_size pw st) = (r, cl) ->
      r <> Ok tt ->
      P (S fuel) st [sending pw st] (Done (r, with_Client st cl))) ->
  (forall fuel st cl tr res,
      safe_inv pw st -> request_guard pw st = true ->
      SendRequest (Client st) (pwIndex pw) (Requested st) (block_size pw st) = (Ok tt, cl) ->
      safe_inv pw (after_request pw st cl) ->
      P fuel (after_request pw st cl) tr res ->
      P (S fuel) st (sending pw st :: (LRequested, after_request pw st cl) :: tr) res) ->
  forall fuel st, safe_inv pw st ->
    P fuel st (fst (requestLoop fuel pw st)) (snd (requestLoop fuel pw st)).
Proof.
  intros HL Hexit Hfuel Hfail Hstep. induction fuel as [|fuel IH]; intros st Hsafe.
  - cbn [requestLoop]. fold (request_guard pw st).
    destruct (request_guard pw st) eqn:Hg; cbn [fst snd]; auto.
  - rewrite requestLoop_unfold.
    destruct (request_guard pw st) eqn:Hg; [|cbn [fst snd]; auto].
    destruct (SendRequest _ _ _ _) as [err cl] eqn:ES.
    pose proof (SendRequest_keeps _ _ _ _ _ _ ES) as [Hinc _].
    destruct err as [[]|e|].
    + destruct (request_step pw st cl HL Hsafe Hg Hinc) as (_ & _ & _ & Hsafe1).
      specialize (IH _ Hsafe1).
      destruct (requestLoop fuel pw (after_request pw st cl)) as [tr res].
      cbn [fst snd] in *. eapply Hstep; eassumption.
    + cbn [fst snd]. eapply Hfail; try eassumption. discriminate.
    + cbn [fst snd]. eapply Hfail; try eassumption. discriminate.
Qed.

(** Every state of the inner loop satisfies [safe_inv], and it is entered
    and left unchoked: each request goes out while unchoked. *)
Lemma requestLoop_safe pw fuel st :
  0 <= pwLength pw <= max_alloc -> safe_inv pw st -> Choked (Client st) = false ->
  Forall (fun o => safe_inv pw (snd o) /\ sends_unchoked o) (fst (requestLoop fuel pw st)) /\
  forall r st', snd (requestLoop fuel pw st) = Done (r, st') ->
                safe_inv pw st' /\ Index st' = Index st /\
                incoming (Conn (Client st')) = incoming (Conn (Client st)).
Proof.
  intros HL Hsafe. revert fuel st Hsafe.
  apply (requestLoop_cases pw
           (fun _ st tr res =>
              Choked (Client st) = false ->
              Forall (fun o => safe_inv pw (snd o) /\ sends_unchoked o) tr /\
              forall r st', res = Done (r, st') ->
                            safe_inv pw st' /\ Index st' = Index st /\
                            incoming (Conn (Client st')) = incoming (Conn (Client st))) HL).
  - intros _ st Hsafe _ _. split; [constructor|]. intros r st' [= <- <-]. auto.
  - intros st _ _ _. split; [constructor|]. intros; discriminate.
  - intros _ st r cl Hsafe _ ES _ Hch.
    apply SendRequest_keeps in ES as [Hinc _].
    split; [constructor; [split; [exact Hsafe|exact Hch]|constructor]|].
    intros r' st' [= <- <-]. split; [|split; [reflexivity|exact Hinc]].
    destruct Hsafe as [Hreq Hlo]. split; [exact Hreq|].
    cbn [with_Client Client Backlog]. rewrite Hinc. exact Hlo.
  - intros _ st cl tr res Hsafe _ ES Hsafe1 IH Hch.
    apply SendRequest_keeps in ES as [Hinc Hchk].
    destruct (IH ltac:(cbn [after_request Client]; congruence)) as [Htr Hres].
    split.
    { constructor; [split; [exact Hsafe|exact Hch]|].
      constructor; [split; [exact Hsafe1|exact I]|exact Htr]. }
    intros r st' Hr. destruct (Hres r st' Hr) as (H1 & H2 & H3).
    split; [exact H1|]. split; [exact H2|]. rewrite H3. exact Hinc.
Qed.

(** The budget [pw.Length - Requested] is enough for the inner loop. *)
Lemma requestLoop_total pw fuel st :
  0 <= pwLength pw <= max_alloc -> safe_inv pw st ->
  (Z.to_nat (pwLength pw - Requested st) <= fuel)%nat ->
  snd (requestLoop fuel pw st) <> OutOfFuel.
Proof.
  intros HL Hsafe. revert fuel st Hsafe.
  apply (requestLoop_cases pw
           (fun fuel st _ res =>
              (Z.to_nat (pwLength pw - Requested st) <= fuel)%nat -> res <> OutOfFuel) HL).
  - discriminate.
  - intros st _ Hg Hfuel. unfold request_guard in Hg.
    apply andb_true_iff in Hg as [_ Er]. zbool. lia.
  - discriminate.
  - intros fuel st cl tr res Hsafe Hg ES _ IH Hfuel.
    apply SendRequest_keeps in ES as [Hinc _].
    destruct (request_step pw st cl HL Hsafe Hg Hinc) as (Hbs & HR1 & _ & _).
    apply IH. rewrite HR1. lia.
Qed.

(** With the requests tracked, the counters stay in step with the list of
    outstanding requests. *)
Lemma requestLoop_ghost pw fuel st :
  0 <= pwLength pw <= max_alloc -> safe_inv pw st ->
  forall out, ghost st out ->
    holds_while_answered (pwIndex pw) pw out (fst (requestLoop fuel pw st)) /\
    forall st', snd (requestLoop fuel pw st) = Done (Ok tt, st') ->
      exists out', run_track (pwIndex pw) out (fst (requestLoop fuel pw st)) = Some out' /\
                   ghost st' out'.
Proof.
  intros HL Hsafe. revert fuel st Hsafe.
  apply (requestLoop_cases pw
           (fun _ st tr res =>
              forall out, ghost st out ->
                holds_while_answered (pwIndex pw) pw out tr /\
                forall st', res = Done (Ok tt, st') ->
                  exists out', run_track (pwIndex pw) out tr = Some out' /\ ghost st' out') HL).
  - intros _ st _ _ out Hg. split; [exact I|]. intros st' [= <-]. eauto.
  - intros st _ _ out _. split; [exact I|]. intros; discriminate.
  - intros _ st r cl Hsafe _ _ Hr out Hg. split.
    + split; [|exact I]. eapply ghost_progress; [exact Hg|exact (proj1 Hsafe)].
    + intros st' [= -> _]. contradiction.
  - intros _ st cl tr res Hsafe Hguard ES Hsafe1 IH out Hg.
    apply SendRequest_keeps in ES as [Hinc _].
    destruct (request_step pw st cl HL Hsafe Hguard Hinc) as (Hbs & HR1 & HB1 & _).
    assert (ghost (after_request pw st cl) ((Requested st, block_size pw st) :: out)) as Hg1.
    { destruct Hg as (Hs & Hb & Hf & Hd). unfold ghost. rewrite HR1, HB1.
      cbn [sum_lengths snd after_request Downloaded]. unfold len in *. cbn [length].
      repeat split; try lia. constructor; [cbn [snd]; lia|exact Hf]. }
    destruct (IH _ Hg1) as [Htr Hres].
    cbn [holds_while_answered run_track track sending fst snd]. split.
    + split; [eapply ghost_progress; [exact Hg|exact (proj1 Hsafe)]|].
      split; [eapply ghost_progress; [exact Hg1|exact (proj1 Hsafe1)]|exact Htr].
    + exact Hres.
Qed.

(** *** The download loop *)

(** What the outer loop does before it reads: the requests, when
    unchoked. *)
Definition request_phase (pw : PieceWork) (st : PieceProgress)
  : list Obs * outcome (result unit * PieceProgress) :=
  if negb (Choked (Client st))
  then requestLoop (Z.to_nat (pwLength pw - Requested st)) pw st
  else ([], Done (Ok tt, st)).

Lemma downloadLoop_unfold fuel pw st :
  downloadLoop (S fuel) pw st =
  if Downloaded st <? pwLength pw then
    let '(tr1, res1) := request_phase pw st in
    match res1 with
    | Done (Ok _, state) =>
        let '(msg, (err, state)) := ReadMessage state in
        match err with
        | Ok _ =>
            let '(tr2, res2) := downloadLoop fuel pw state in
            (tr1 ++ (LRead msg, state) :: tr2, res2)
        | _ => (tr1 ++ [(LRead msg, state)], Done (err, state))
        end
    | _ => (tr1, res1)
    end
  else ([], Done (Ok tt, st)).
Proof. reflexivity. Qed.

(** The request phase ends, in a state that satisfies [safe_inv], with the
    stream untouched; every request in it goes out unchoked. *)
Lemma request_phase_safe pw st :
  0 <= pwLength pw <= max_alloc -> safe_inv pw st ->
  Forall (fun o => safe_inv pw (snd o) /\ sends_unchoked o) (fst (request_phase pw st)) /\
  exists r st1,
    snd (request_phase pw st) = Done (r, st1) /\ safe_inv pw st1 /\
    Index st1 = Index st /\
    incoming (Conn (Client st1)) = incoming (Conn (Client st)).
Proof.
  intros HL Hsafe. unfold request_phase.
  destruct (negb (Choked (Client st))) eqn:Ech.
  - apply negb_true_iff in Ech.
    destruct (requestLoop_safe pw (Z.to_nat (pwLength pw - Requested st)) st HL Hsafe Ech)
      as [Htr Hres].
    split; [exact Htr|].
    pose proof (requestLoop_total pw _ st HL Hsafe (Nat.le_refl _)) as Htot.
    destruct (snd (requestLoop _ pw st)) as [[r st1]|] eqn:E; [|contradiction].
    exists r, st1. split; [reflexivity|]. exact (Hres r st1 eq_refl).
  - cbn [fst snd]. split; [constructor|]. exists (Ok tt), st. auto.
Qed.

Lemma request_phase_ghost pw st out :
  0 <= pwLength pw <= max_alloc -> safe_inv pw st -> ghost st out ->
  holds_while_answered (pwIndex pw) pw out (fst (request_phase pw st)) /\
  forall st1, snd (request_phase pw st) = Done (Ok tt, st1) ->
    exists out', run_track (pwIndex pw) out (fst (request_phase pw st)) = Some out' /\
                 ghost st1 out'.
Proof.
  intros HL Hsafe Hg. unfold request_phase.
  destruct (negb (Choked (Client st))).
  - apply requestLoop_ghost; assumption.
  - cbn [fst snd]. split; [exact I|]. intros st1 [= <-]. eauto.
Qed.

(** A successful read takes at least four bytes off the stream. *)
Lemma ReadMessage_consumes st msg st' :
  ReadMessage st = (msg, (Ok tt, st')) ->
  len (incoming (Conn (Client st'))) + 4 <= len (incoming (Conn (Client st))).
Proof.
  intros Hrm. pose proof (ReadMessage_counters _ _ _ _ Hrm) as (_ & _ & HRead & _).
  assert (exists x, msg = Ok x) as [x ->].
  { revert Hrm. unfold ReadMessage. destruct (client.Read (Client st)) as [[x|e|] cl].
    - intros H. apply (f_equal fst) in H. cbn [fst] in H. eauto.
    - intros [= <- ? ?]; discriminate.
    - intros [= <- ? ?]; discriminate. }
  eapply message_Read_ok. exact HRead.
Qed.

(** Induction over the runs of the outer loop from a state that satisfies
    [safe_inv]: the piece is complete, or the budget is exhausted, or the
    request phase fails, or the read fails, or a message is handled and
    the loop goes on. *)
Lemma downloadLoop_cases pw
    (P : nat -> PieceProgress -> list Obs -> outcome (result unit * PieceProgress) -> Prop) :
  0 <= pwLength pw <= max_alloc ->
  (forall fuel st, safe_inv pw st -> (Downloaded st <? pwLength pw) = false ->
                   P fuel st [] (Done (Ok tt, st))) ->
  (forall st, safe_inv pw st -> (Downloaded st <? pwLength pw) = true ->
              P O st [] OutOfFuel) ->
  (forall fuel st r st1,
      safe_inv pw st ->
      snd (request_phase pw st) = Done (r, st1) -> r <> Ok tt ->
      P (S fuel) st (fst (request_phase pw st)) (Done (r, st1))) ->
  (forall fuel st st1 msg err st2,
      safe_inv pw st ->
      snd (request_phase pw st) = Done (Ok tt, st1) -> safe_inv pw st1 ->
      ReadMessage st1 = (msg, (err, st2)) -> err <> Ok tt -> safe_inv pw st2 ->
      P (S fuel) st (fst (request_phase pw st) ++ [(LRead msg, st2)]) (Done (err, st2))) ->
  (forall fuel st st1 msg st2 tr2 res2,
      safe_inv pw st ->
      snd (request_phase pw st) = Done (Ok tt, st1) -> safe_inv pw st1 ->
      ReadMessage st1 = (msg, (Ok tt, st2)) -> safe_inv pw st2 ->
      P fuel st2 tr2 res2 ->
      P (S fuel) st (fst (request_phase pw st) ++ (LRead msg, st2) :: tr2) res2) ->
  forall fuel st, safe_inv pw st ->
    P fuel st (fst (downloadLoop fuel pw st)) (snd (downloadLoop fuel pw st)).
Proof.
  intros HL Hexit Hfuel Hreq Hfail Hstep. induction fuel as [|fuel IH]; intros st Hsafe.
  - cbn [downloadLoop]. destruct (Downloaded st <? pwLength pw) eqn:Hd; cbn [fst snd]; auto.
  - rewrite downloadLoop_unfold.
    destruct (Downloaded st <? pwLength pw) eqn:Hd; [|cbn [fst snd]; auto].
    destruct (request_phase_safe pw st HL Hsafe) as (_ & r & st1 & Hres & Hsafe1 & _).
    rewrite (surjective_pairing (request_phase pw st)), Hres.
    destruct r as [[]|e|].
    + destruct (ReadMessage st1) as [msg [err st2]] eqn:ERM.
      pose proof (ReadMessage_safe pw _ _ _ _ Hsafe1 ERM) as Hsafe2.
      destruct err as [[]|e|].
      * specialize (IH _ Hsafe2). destruct (downloadLoop fuel pw st2) as [tr2 res2].
        cbn [fst snd] in *. eapply Hstep; eassumption.
      * cbn [fst snd]. eapply Hfail; try eassumption. discriminate.
      * cbn [fst snd]. eapply Hfail; try eassumption. discriminate.
    + cbn [fst snd]. eapply Hreq; try eassumption. discriminate.
    + cbn [fst snd]. eapply Hreq; try eassumption. discriminate.
Qed.

(** Every state of an attempt satisfies [safe_inv], and every request goes
    out unchoked. *)
Lemma downloadLoop_safe pw fuel st :
  0 <= pwLength pw <= max_alloc -> safe_inv pw st ->
  Forall (fun o => safe_inv pw (snd o) /\ sends_unchoked o) (fst (downloadLoop fuel pw st)).
Proof.
  intros HL Hsafe. revert fuel st Hsafe.
  apply (downloadLoop_cases pw
           (fun _ _ tr _ => Forall (fun o => safe_inv pw (snd o) /\ sends_unchoked o) tr) HL).
  - constructor.
  - constructor.
  - intros _ st _ _ Hsafe _ _. apply request_phase_safe; assumption.
  - intros _ st _ msg _ st2 Hsafe _ _ _ _ Hsafe2. apply Forall_app. split.
    + apply request_phase_safe; assumption.
    + constructor; [split; [exact Hsafe2|exact I]|constructor].
  - intros _ st _ msg st2 tr2 _ Hsafe _ _ _ Hsafe2 IH. apply Forall_app. split.
    + apply request_phase_safe; assumption.
    + constructor; [split; [exact Hsafe2|exact I]|exact IH].
Qed.

(** The budget [1 + len(stream)] is enough for the outer loop: every turn
    that goes on has read a message. *)
Lemma downloadLoop_total pw fuel st :
  0 <= pwLength pw <= max_alloc -> safe_inv pw st ->
  (length (incoming (Conn (Client st))) < fuel)%nat ->
  snd (downloadLoop fuel pw st) <> OutOfFuel.
Proof.
  intros HL Hsafe. revert fuel st Hsafe.
  apply (downloadLoop_cases pw
           (fun fuel st _ res =>
              (length (incoming (Conn (Client st))) < fuel)%nat -> res <> OutOfFuel) HL);
    try discriminate.
  - intros st _ _ Hfuel. lia.
  - intros fuel st st1 msg st2 tr2 res2 Hsafe Hph _ Hrm _ IH Hfuel. apply IH.
    destruct (request_phase_safe pw st HL Hsafe) as (_ & r & st1' & Hres & _ & _ & Hinc).
    rewrite Hph in Hres. injection Hres as <- <-.
    apply ReadMessage_consumes in Hrm. rewrite Hinc in Hrm. unfold len in Hrm. lia.
Qed.

(** Up to the first piece message that answers no outstanding request,
    every state of an attempt satisfies [progress_inv]. *)
Lemma downloadLoop_ghost pw fuel st :
  0 <= pwLength pw <= max_alloc -> safe_inv pw st ->
  forall out, ghost st out -> Index st = pwIndex pw ->
    holds_while_answered (pwIndex pw) pw out (fst (downloadLoop fuel pw st)).
Proof.
  intros HL Hsafe. revert fuel st Hsafe.
  apply (downloadLoop_cases pw
           (fun _ st tr _ =>
              forall out, ghost st out -> Index st = pwIndex pw ->
                holds_while_answered (pwIndex pw) pw out tr) HL).
  - intros; exact I.
  - intros; exact I.
  - intros _ st _ _ Hsafe _ _ out Hg _. apply request_phase_ghost; assumption.
  - intros _ st st1 msg err st2 Hsafe Hph Hsafe1 Hrm _ _ out Hg Hidx.
    destruct (request_phase_ghost pw st out HL Hsafe Hg) as [Htr1 Hres].
    destruct (request_phase_safe pw st HL Hsafe) as (_ & r & st1' & Hres' & _ & Hidx1 & _).
    rewrite Hph in Hres'. injection Hres' as <- <-.
    apply hwa_app; [exact Htr1|]. intros out1 Hout1.
    destruct (Hres st1 Hph) as (out' & Hrun & Hg1). rewrite Hrun in Hout1. injection Hout1 as <-.
    pose proof (ReadMessage_ghost pw _ _ _ _ _ (proj2 HL) Hsafe1 Hg1 Hrm) as Hg2.
    rewrite Hidx1, Hidx in Hg2. cbn [holds_while_answered].
    destruct (track (pwIndex pw) out' (LRead msg, st2)); [|exact I].
    split; [exact (proj1 Hg2)|exact I].
  - intros _ st st1 msg st2 tr2 _ Hsafe Hph Hsafe1 Hrm _ IH out Hg Hidx.
    destruct (request_phase_ghost pw st out HL Hsafe Hg) as [Htr1 Hres].
    destruct (request_phase_safe pw st HL Hsafe) as (_ & r & st1' & Hres' & _ & Hidx1 & _).
    rewrite Hph in Hres'. injection Hres' as <- <-.
    apply hwa_app; [exact Htr1|]. intros out1 Hout1.
    destruct (Hres st1 Hph) as (out' & Hrun & Hg1). rewrite Hrun in Hout1. injection Hout1 as <-.
    pose proof (ReadMessage_ghost pw _ _ _ _ _ (proj2 HL) Hsafe1 Hg1 Hrm) as Hg2.
    pose proof (ReadMessage_counters _ _ _ _ Hrm) as (Hidx2 & _).
    rewrite Hidx1, Hidx in Hg2. cbn [holds_while_answered].
    destruct (track (pwIndex pw) out' (LRead msg, st2)); [|exact I].
    destruct Hg2 as [Hp Hg2]. split; [exact Hp|].
    apply IH; [exact (Hg2 eq_refl)|congruence].
Qed.

End p2p_facts.

(** ** Query strings *)

Section url_facts.
Import url.
Local Open Scope string_scope.

Lemma append_cons c s t : String c s ++ t = String c (s ++ t).
Proof. reflexivity. Qed.

Lemma append_empty t : "" ++ t = t.
Proof. reflexivity. Qed.

Lemma append_assoc (s t u : string) : (s ++ t) ++ u = s ++ (t ++ u).
Proof.
  induction s as [|c s IH]; [reflexivity|].
  rewrite !append_cons, IH. reflexivity.
Qed.

Lemma nonempty_cons c s : (0 <? String.length (String c s))%nat = true.
Proof. reflexivity. Qed.

(** Each byte is escaped on its own, and the escape can be undone. *)
Lemma escape_unescape_byte c t :
  QueryUnescape (escape_byte c ++ t) =
  match QueryUnescape t with Some r => Some (String c r) | None => None end.
Proof.
  destruct c as [[] [] [] [] [] [] [] []]; reflexivity.
Qed.

Lemma QueryUnescape_QueryEscape s : QueryUnescape (QueryEscape s) = Some s.
Proof.
  induction s as [|c s IH]; [reflexivity|].
  cbn [QueryEscape]. rewrite escape_unescape_byte, IH. reflexivity.
Qed.

(** The characters that delimit the components of a query string. *)
Definition query_separator (c : ascii) : bool := Ascii.eqb c "&" || Ascii.eqb c "=".

Lemma escape_byte_no_separator c :
  all_chars (fun x => negb (query_separator x)) (escape_byte c) = true.
Proof.
  destruct c as [[] [] [] [] [] [] [] []]; reflexivity.
Qed.

Lemma all_chars_app f s t :
  all_chars f (s ++ t) = all_chars f s && all_chars f t.
Proof.
  induction s as [|c s IH]; [reflexivity|].
  rewrite append_cons. cbn [all_chars]. rewrite IH. apply andb_assoc.
Qed.

Lemma QueryEscape_no_separator s :
  all_chars (fun x => negb (query_separator x)) (QueryEscape s) = true.
Proof.
  induction s as [|c s IH]; [reflexivity|].
  cbn [QueryEscape]. rewrite all_chars_app, escape_byte_no_separator, IH. reflexivity.
Qed.

Lemma QueryEscape_digits d :
  QueryEscape (NilEmpty.string_of_uint d) = NilEmpty.string_of_uint d.
Proof.
  induction d; cbn [NilEmpty.string_of_uint QueryEscape]; rewrite ?IHd; reflexivity.
Qed.

Lemma QueryEscape_Itoa z : QueryEscape (Itoa z) = Itoa z.
Proof.
  unfold Itoa, NilZero.string_of_int.
  destruct (Z.to_int z) as [d|d]; unfold NilZero.string_of_uint.
  - destruct d; try apply QueryEscape_digits; reflexivity.
  - cbn [QueryEscape]. change (escape_byte "-") with "-".
    rewrite append_cons, append_empty. f_equal.
    destruct d; try apply QueryEscape_digits; reflexivity.
Qed.

(** [strings.Join(parts, sep)] *)
Fixpoint join_with (sep : string) (parts : list string) : string :=
  match parts with
  | [] => ""
  | [p] => p
  | p :: rest => p ++ sep ++ join_with sep rest
  end.

End url_facts.

Ltac string_norm :=
  repeat progress
    (rewrite ?append_assoc, ?append_cons, ?append_empty, ?nonempty_cons; cbv iota).

Section torrentfile_facts.
Import torrentfile.
Local Open Scope string_scope.

Lemma tracker_keys tf pid port :
  url.sort_strings (map fst (map_to_list (tracker_params tf pid port))) =
  ["compact"; "downloaded"; "info_hash"; "left"; "peer_id"; "port"; "uploaded"].
Proof. vm_compute. reflexivity. Qed.

Lemma tracker_params_lookup tf pid port :
  let m := tracker_params tf pid port in
  m !! "compact" = Some ["1"] /\ m !! "downloaded" = Some ["0"] /\
  m !! "info_hash" = Some [hash_string (InfoHash tf)] /\
  m !! "left" = Some [url.Itoa (Length tf)] /\
  m !! "peer_id" = Some [hash_string pid] /\
  m !! "port" = Some [url.Itoa port] /\ m !! "uploaded" = Some ["0"].
Proof.
  unfold tracker_params. cbv zeta.
  repeat split;
    repeat (rewrite lookup_insert_eq || rewrite lookup_insert_ne by discriminate);
    reflexivity.
Qed.

Lemma Encode_tracker_params tf pid port :
  url.Encode (tracker_params tf pid port) =
  join_with "&"
    [ "compact=1"; "downloaded=0";
      "info_hash=" ++ url.QueryEscape (hash_string (InfoHash tf));
      "left=" ++ url.Itoa (Length tf);
      "peer_id=" ++ url.QueryEscape (hash_string pid);
      "port=" ++ url.Itoa port;
      "uploaded=0" ].
Proof.
  unfold url.Encode. rewrite tracker_keys.
  destruct (tracker_params_lookup tf pid port) as (H1 & H2 & H3 & H4 & H5 & H6 & H7).
  cbv zeta in *. cbn [fold_left].
  rewrite H1, H2, H3, H4, H5, H6, H7. unfold id. cbn [default fold_left from_option].
  rewrite !QueryEscape_Itoa.
  generalize (url.QueryEscape (hash_string (InfoHash tf))) as a.
  generalize (url.QueryEscape (hash_string pid)) as b.
  generalize (url.Itoa (Length tf)) as c. generalize (url.Itoa port) as d.
  intros d c b a.
  transitivity
    ((((((((("compact=1&downloaded=0&info_hash=" ++ a) ++ "&") ++ "left=" ++ c) ++ "&")
          ++ "peer_id=" ++ b) ++ "&") ++ "port=" ++ d) ++ "&") ++ "uploaded=0").
  - reflexivity.
  - cbn [join_with]. rewrite !append_assoc. reflexivity.
Qed.

Lemma BuildTrackerUrl_query tf pid port base :
  url.Parse (Announce tf) = Ok base ->
  BuildTrackerUrl tf pid port =
  Ok (url.Scheme base ++ "://" ++ url.Host base ++ url.Path base ++ "?" ++
      url.Encode (tracker_params tf pid port)).
Proof.
  intros HP. unfold BuildTrackerUrl. rewrite HP. cbv zeta.
  unfold url.String_, url.with_RawQuery. cbn [url.Scheme url.Host url.Path url.RawQuery].
  rewrite Encode_tracker_params. cbn [join_with].
  string_norm. reflexivity.
Qed.

End torrentfile_facts.

(** * The specification, claim by claim *)

(** ** Message framing *)

(** C9. [FormatRequest(4, 567, 4321)], serialized with its length prefix,
    is the 17 bytes [00 00 00 0D 06 00 00 00 04 00 00 02 37 00 00 10 E1]. *)
Theorem FormatRequest_frame :
  message.Serialize (Some (message.FormatRequestMsg 4 567 4321)) =
  Ok [x00; x00; x00; x0d; x06; x00; x00; x00; x04; x00; x00; x02; x37;
      x00; x00; x10; xe1].
Proof. vm_compute. reflexivity. Qed.

(** A payload of exactly 2^32 bytes: the [uint32] length [len + 1] wraps to
    1, so the frame carries the id and nothing else. *)
Lemma Serialize_wraps (id : byte) (p : list byte) :
  len p = 2 ^ 32 ->
  message.Serialize (Some {| message.Id := id; message.Payload := p |}) =
  Ok [x00; x00; x00; x01; id].
Proof.
  intros Hlen. unfold message.Serialize. cbn [message.Payload message.Id].
  rewrite Hlen.
  replace (to_uint32 (int_add (2 ^ 32) 1)) with 1 by (vm_compute; reflexivity).
  replace (make (to_uint32 (4 + 1))) with [x00; x00; x00; x00; x00] by (vm_compute; reflexivity).
  replace (put32 [x00; x00; x00; x00; x00] 0 1) with [x00; x00; x00; x01; x00]
    by (vm_compute; reflexivity).
  change (len [x00; x00; x00; x00; x00] <? 4) with false.
  change (len [x00; x00; x00; x01; x00] <=? 4) with false.
  cbv iota. cbn [list_insert insert].
  unfold copy_at, copy. change (Z.to_nat 5) with 5%nat.
  cbn [drop take length Nat.min app fst]. reflexivity.
Qed.

Definition huge_payload : list byte := replicate (Z.to_nat (2 ^ 32)) x00.

Lemma len_huge_payload : len huge_payload = 2 ^ 32.
Proof.
  unfold len, huge_payload. rewrite length_replicate.
  apply Z2Nat.id. apply Z.pow_nonneg. lia.
Qed.

Lemma message_neq id1 id2 (p1 p2 : list byte) :
  len p1 <> len p2 ->
  {| message.Id := id1; message.Payload := p1 |} <>
  {| message.Id := id2; message.Payload := p2 |}.
Proof. intros Hne H. apply Hne. injection H as _ ->. reflexivity. Qed.

Lemma len_nil_huge_payload : len (@nil byte) <> len huge_payload.
Proof.
  rewrite len_huge_payload. change (len (@nil byte)) with 0.
  apply Z.lt_neq. apply Z.pow_pos_nonneg; lia.
Qed.

(** C4, as stated, fails: a message whose payload has 2^32 bytes is
    serialized to a five-byte frame, and reading that frame back yields a
    message with an empty payload. *)
Lemma Serialize_Read_huge_payload :
  message.Serialize (Some {| message.Id := message.MsgPiece; message.Payload := huge_payload |}) =
    Ok [x00; x00; x00; x01; x07] /\
  message.Read [x00; x00; x00; x01; x07] =
    (Ok (Some {| message.Id := message.MsgPiece; message.Payload := [] |}), []) /\
  {| message.Id := message.MsgPiece; message.Payload := [] |} <>
  {| message.Id := message.MsgPiece; message.Payload := huge_payload |}.
Proof.
  split; [apply Serialize_wraps, len_huge_payload|].
  split; [vm_compute; reflexivity|].
  apply message_neq, len_nil_huge_payload.
Qed.

(** C4, amended.  Reading back what [Serialize] produced yields the same
    message, for every id byte and every payload of at most 2^32 - 6 bytes
    (so that neither the length prefix nor the buffer size overflows
    [uint32]); and the keep-alive is read back as the keep-alive.  The
    reader is left at the first byte after the frame. *)
Theorem Read_Serialize_message (msg : message.Message) (rest : list byte) :
  len (message.Payload msg) <= 2 ^ 32 - 6 ->
  (exists frame, message.Serialize (Some msg) = Ok frame /\
                 message.Read (frame ++ rest) = (Ok (Some msg), rest)) /\
  (exists frame, message.Serialize None = Ok frame /\
                 message.Read (frame ++ rest) = (Ok None, rest)).
Proof.
  intros Hlen. split.
  - eexists. split; [apply message_Serialize_fits; exact Hlen|].
    rewrite <- app_assoc. cbn [app].
    rewrite message_Read_frame by lia. destruct msg; reflexivity.
  - exists [x00; x00; x00; x00]. split; [reflexivity|].
    unfold message.Read. rewrite ReadFull_app by reflexivity. reflexivity.
Qed.

Lemma Read_Serialize_message_witness :
  (exists frame,
      message.Serialize (Some (message.FormatHave 123)) = Ok frame /\
      message.Read (frame ++ [xff]) = (Ok (Some (message.FormatHave 123)), [xff])) /\
  (exists frame, message.Serialize None = Ok frame /\
                 message.Read (frame ++ [xff]) = (Ok None, [xff])).
Proof.
  apply (Read_Serialize_message (message.FormatHave 123) [xff]).
  vm_compute. discriminate.
Defined.

(** ** Piece messages *)

Lemma take4_drop (p : list byte) off :
  0 <= off -> off + 4 <= len p ->
  BigEndian.Uint32 (take 4 (drop (Z.to_nat off) p)) = Some (be32_at p off).
Proof.
  unfold len. intros Hoff Hfit.
  destruct (lookup_lt_is_Some_2 p (Z.to_nat off) ltac:(lia)) as [b0 H0].
  destruct (lookup_lt_is_Some_2 p (S (Z.to_nat off)) ltac:(lia)) as [b1 H1].
  destruct (lookup_lt_is_Some_2 p (S (S (Z.to_nat off))) ltac:(lia)) as [b2 H2].
  destruct (lookup_lt_is_Some_2 p (S (S (S (Z.to_nat off)))) ltac:(lia)) as [b3 H3].
  assert (take 4 (drop (Z.to_nat off) p) = [b0; b1; b2; b3]) as ->.
  { rewrite (take_S_r _ 3 b3) by (rewrite lookup_drop, <- H3; f_equal; lia).
    rewrite (take_S_r _ 2 b2) by (rewrite lookup_drop, <- H2; f_equal; lia).
    rewrite (take_S_r _ 1 b1) by (rewrite lookup_drop, <- H1; f_equal; lia).
    rewrite (take_S_r _ 0 b0) by (rewrite lookup_drop, <- H0; f_equal; lia).
    reflexivity. }
  rewrite Uint32_arith. unfold be32_at, byte_at.
  replace (Z.to_nat (off + 1)) with (S (Z.to_nat off)) by lia.
  replace (Z.to_nat (off + 2)) with (S (S (Z.to_nat off))) by lia.
  replace (Z.to_nat (off + 3)) with (S (S (S (Z.to_nat off)))) by lia.
  rewrite H0, H1, H2, H3. reflexivity.
Qed.

Lemma be32_at_range p off : 0 <= be32_at p off < 2 ^ 32.
Proof.
  unfold be32_at.
  assert (forall i, 0 <= byte_at p i < 256) as Hb.
  { intros i. unfold byte_at. destruct (p !! Z.to_nat i) as [b|]; [apply byte_to_Z_range|lia]. }
  pose proof (Hb off). pose proof (Hb (off + 1)). pose proof (Hb (off + 2)).
  pose proof (Hb (off + 3)). lia.
Qed.

(** The conditions under which the specification says [ParsePiece] fails. *)
Definition ParsePiece_rejects (index : Z) (dataBuf : list byte) (msg : message.Message) : Prop :=
  message.Id msg <> message.MsgPiece \/
  len (message.Payload msg) < 8 \/
  piece_index msg <> index \/
  piece_begin msg >= len dataBuf \/
  piece_begin msg + len (piece_block msg) > len dataBuf.

(** What [ParsePiece] does, case by case. *)
Lemma ParsePiece_cases index dataBuf msg :
  len (message.Payload msg) <= max_alloc ->
  (ParsePiece_rejects index dataBuf msg /\
   (exists e, message.ParsePiece index dataBuf msg = (Err e, dataBuf))) \/
  (~ ParsePiece_rejects index dataBuf msg /\
   message.ParsePiece index dataBuf msg =
   (Ok (len (piece_block msg)),
    take (Z.to_nat (piece_begin msg)) dataBuf ++ piece_block msg ++
    drop (Z.to_nat (piece_begin msg + len (piece_block msg))) dataBuf)).
Proof.
  unfold max_alloc. intros Hmax.
  unfold message.ParsePiece, ParsePiece_rejects.
  destruct (Byte.eqb (message.Id msg) message.MsgPiece) eqn:Eid; cbn [negb].
  2:{ left. split; [|eexists; reflexivity]. left. intros H. rewrite H in Eid. discriminate. }
  apply Byte.byte_dec_bl in Eid.
  destruct (len (message.Payload msg) >=? 8) eqn:Elen; zbool; cbn [negb].
  2:{ left. split; [|eexists; reflexivity]. right; left. lia. }
  change (take 4 (message.Payload msg)) with (take 4 (drop (Z.to_nat 0) (message.Payload msg))).
  change (take 4 (drop 4 (message.Payload msg)))
    with (take 4 (drop (Z.to_nat 4) (message.Payload msg))).
  rewrite !take4_drop by lia.
  fold (piece_index msg). fold (piece_begin msg).
  pose proof (be32_at_range (message.Payload msg) 4) as Hb.
  fold (piece_begin msg) in Hb.
  destruct (piece_index msg =? index) eqn:Eidx; zbool; cbn [negb].
  2:{ left. split; [|eexists; reflexivity]. right; right; left. exact Eidx. }
  destruct (piece_begin msg >=? len dataBuf) eqn:Ebeg; zbool.
  { left. split; [|eexists; reflexivity]. right; right; right; left. lia. }
  change (drop 8 (message.Payload msg)) with (piece_block msg).
  assert (len (piece_block msg) = len (message.Payload msg) - 8) as Hbl.
  { unfold piece_block, len in *. rewrite length_drop. lia. }
  unfold int_add. rewrite wrap_int_id by (unfold in_int, int_min, int_max; lia).
  destruct (_ >? len dataBuf) eqn:Efit; zbool.
  { left. split; [|eexists; reflexivity]. right; right; right; right. lia. }
  right. split; [intros [H|[H|[H|[H|H]]]]; try lia; contradiction|].
  rewrite copy_at_fits by lia. reflexivity.
Qed.

(** C2. [ParsePiece(expected_index, dest_buffer, msg)] returns an error
    exactly when the id is not 7, or the payload is shorter than 8 bytes,
    or the big-endian index differs from the expected one, or the begin
    offset is not below the buffer length, or the block would run past the
    end of the buffer; otherwise it copies the block into the buffer at
    the begin offset and returns the block length. *)
Theorem ParsePiece_spec (index : Z) (dataBuf : list byte) (msg : message.Message) :
  len (message.Payload msg) <= max_alloc ->
  (is_Err (fst (message.ParsePiece index dataBuf msg)) <->
   ParsePiece_rejects index dataBuf msg) /\
  (~ ParsePiece_rejects index dataBuf msg ->
   message.ParsePiece index dataBuf msg =
   (Ok (len (piece_block msg)),
    take (Z.to_nat (piece_begin msg)) dataBuf ++ piece_block msg ++
    drop (Z.to_nat (piece_begin msg + len (piece_block msg))) dataBuf)).
Proof.
  intros Hmax.
  destruct (ParsePiece_cases index dataBuf msg Hmax) as [[Hrej [e He]]|[Hok Heq]].
  - split; [|contradiction]. rewrite He. split; [intros _; exact Hrej|intros _; exists e; reflexivity].
  - split; [|intros _; exact Heq]. rewrite Heq. cbn [fst]. split; [|contradiction].
    intros [e He]. discriminate.
Qed.

Definition sample_piece : message.Message :=
  {| message.Id := message.MsgPiece;
     message.Payload := [x00; x00; x00; x00; x00; x00; x00; x02; xaa; xbb; xcc; xdd] |}.

Lemma ParsePiece_spec_witness :
  message.ParsePiece 0 (make 10) sample_piece =
  (Ok 4, [x00; x00; xaa; xbb; xcc; xdd; x00; x00; x00; x00]).
Proof.
  assert (len (message.Payload sample_piece) <= max_alloc) as Hmax by (vm_compute; discriminate).
  assert (~ ParsePiece_rejects 0 (make 10) sample_piece) as Hok.
  { intros [H|[H|[H|[H|H]]]]; vm_compute in H; congruence. }
  rewrite (proj2 (ParsePiece_spec 0 (make 10) sample_piece Hmax) Hok).
  reflexivity.
Defined.

(** C10. When [ParsePiece] returns an error the destination buffer is left
    as it was: every check comes before the copy. *)
Theorem ParsePiece_error_keeps_buffer (index : Z) (dataBuf : list byte)
    (msg : message.Message) (e : error) :
  fst (message.ParsePiece index dataBuf msg) = Err e ->
  snd (message.ParsePiece index dataBuf msg) = dataBuf.
Proof.
  unfold message.ParsePiece.
  repeat match goal with
         | |- context [if ?c then _ else _] => destruct c
         | |- context [match ?x with Some _ => _ | None => _ end] => destruct x
         end; cbn [fst snd]; intros H; try reflexivity; discriminate.
Qed.

Lemma ParsePiece_error_keeps_buffer_witness :
  snd (message.ParsePiece 4 (make 5)
         {| message.Id := message.MsgPiece;
            message.Payload := [x00; x00; x00; x04; x00; x00; x00; x02;
                                xaa; xbb; xcc; xdd; xee; xff; x0a; x0b; x0c; x0d] |}) =
  make 5.
Proof.
  apply (ParsePiece_error_keeps_buffer _ _ _ ErrDataTooLarge). reflexivity.
Defined.

Lemma length_list_byte_of_string (s : string) :
  length (list_byte_of_string s) = String.length s.
Proof.
  unfold list_byte_of_string. rewrite length_map.
  induction s as [|c s IH]; [reflexivity|].
  cbn [list_ascii_of_string String.length length]. rewrite IH. reflexivity.
Qed.

(** ** Handshake *)

Definition sample_hash : Sha1Hash :=
  [# x01; x02; x03; x04; x05; x06; x07; x08; x09; x0a;
     x0b; x0c; x0d; x0e; x0f; x10; x11; x12; x13; x14 ].

(** A protocol string of 256 bytes. *)
Definition long_pstr : string :=
  string_of_list_byte (replicate 256 x61).

(** C5, as stated, fails: the length byte holds [len(Pstr) mod 256], so a
    handshake whose protocol string has 256 bytes is serialized with a
    leading zero byte, which [Read] rejects. *)
Lemma handshake_long_pstr_not_read_back :
  String.length long_pstr = 256%nat /\
  fst (handshake.Read
         (handshake.Serialize
            {| handshake.Pstr := long_pstr;
               handshake.InfoHash := sample_hash;
               handshake.PeerId := sample_hash |})) = Err ErrPstrLenZero.
Proof. split; vm_compute; reflexivity. Qed.

(** C5, amended.  For every handshake whose protocol string has between 1
    and 255 bytes, reading back the serialized handshake yields the same
    protocol string, info-hash and peer-id, with no error. *)
Theorem Read_Serialize_handshake (hs : handshake.Handshake) (rest : list byte) :
  (1 <= String.length (handshake.Pstr hs) <= 255)%nat ->
  handshake.Read (handshake.Serialize hs ++ rest) = (Ok hs, rest).
Proof.
  intros Hlen. apply handshake_Read_Serialize.
  unfold len. rewrite length_list_byte_of_string. lia.
Qed.

Lemma Read_Serialize_handshake_witness :
  handshake.Read (handshake.Serialize (handshake.New sample_hash sample_hash) ++ [xff]) =
  (Ok (handshake.New sample_hash sample_hash), [xff]).
Proof.
  apply (Read_Serialize_handshake (handshake.New sample_hash sample_hash) [xff]).
  vm_compute. split; repeat constructor.
Defined.

(** ** Bitfield *)

(** C6. [HasPiece(i)] is true exactly when [i] lies in [0, 8 * len) and
    bit [7 - i mod 8] of byte [i / 8] is set; it is false on every
    negative or out-of-range index; and [SetPiece(i)] leaves the bitfield
    unchanged on every negative or out-of-range index. *)
Theorem bitfield_index_spec (bf : bitfield.Bitfield) (i : Z) :
  (bitfield.HasPiece bf i = true <->
   0 <= i < 8 * len bf /\
   exists b, bf !! Z.to_nat (i / 8) = Some b /\
             Z.testbit (byte_to_Z b) (7 - i mod 8) = true) /\
  (i < 0 \/ 8 * len bf <= i -> bitfield.HasPiece bf i = false) /\
  (i < 0 \/ 8 * len bf <= i -> bitfield.SetPiece bf i = bf).
Proof.
  split; [|split; [apply HasPiece_out_of_range|apply SetPiece_out_of_range]].
  destruct (Z.lt_ge_cases i 0) as [Hneg|Hnn].
  { rewrite HasPiece_out_of_range by lia. split; [discriminate|lia]. }
  destruct (Z.lt_ge_cases i (8 * len bf)) as [Hlt|Hge].
  2:{ rewrite HasPiece_out_of_range by lia. split; [discriminate|lia]. }
  assert (0 <= i / 8 < len bf) as Hq.
  { split; [apply Z.div_pos; lia | apply Z.div_lt_upper_bound; lia]. }
  destruct (in_bounds_lookup bf (i / 8) Hq) as [b Hb].
  rewrite (HasPiece_in_range bf i b) by (assumption || lia).
  split.
  - intros Ht. split; [lia|]. exists b. split; assumption.
  - intros (_ & b' & Hb' & Ht). rewrite Hb in Hb'. injection Hb' as <-. exact Ht.
Qed.

(** ** Compact peer list *)

(** C7. For a byte string whose length is a multiple of 6, [Unmarshal]
    returns [len / 6] peers, peer [k] having the four bytes at offset [6k]
    as its address and the big-endian 16-bit number at offset [6k + 4] as
    its port; for any other length it returns an error. *)
Theorem Unmarshal_spec (peersBin : list byte) :
  len peersBin <= max_alloc ->
  (len peersBin mod 6 = 0 ->
   exists ps, peers.Unmarshal peersBin = Ok ps /\
              len ps = len peersBin / 6 /\
              forall k, 0 <= k < len peersBin / 6 ->
                        ps !! Z.to_nat k = Some (compact_peer peersBin k)) /\
  (len peersBin mod 6 <> 0 -> is_Err (peers.Unmarshal peersBin)).
Proof.
  intros Hmax. pose proof (len_nonneg peersBin) as Hnn.
  unfold peers.Unmarshal, peers.peersSize.
  rewrite Z.rem_mod_nonneg, Z.quot_div_nonneg by lia.
  split.
  - intros Hmod. rewrite Hmod. cbn [Z.eqb negb].
    set (n := len peersBin / 6).
    assert (len peersBin = 6 * n) as Hn
      by (unfold n; pose proof (Z.div_mod (len peersBin) 6 ltac:(lia)); lia).
    destruct (unmarshal_loop_spec peersBin Hmax (Z.to_nat n) 0
                (replicate (Z.to_nat n) {| peers.IP := []; peers.Port := 0 |})
                ltac:(lia) ltac:(lia)
                ltac:(rewrite length_replicate; lia))
      as (ps & Hrun & Hlen & Hk).
    exists ps. split; [exact Hrun|]. rewrite length_replicate in Hlen.
    split; [unfold len; lia|].
    intros k Hkr. rewrite Hk. destruct (decide _) as [_|Hno]; [|lia].
    rewrite Z2Nat.id by lia. reflexivity.
  - intros Hmod. destruct (len peersBin mod 6 =? 0) eqn:E; zbool; [contradiction|].
    cbn [negb]. eexists. reflexivity.
Qed.

Lemma Unmarshal_spec_witness :
  (exists ps,
      peers.Unmarshal [x7f; x00; x00; x01; x00; x50; x01; x01; x01; x01; x01; xbb] = Ok ps /\
      len ps = 2 /\
      ps !! 0%nat = Some {| peers.IP := [x7f; x00; x00; x01]; peers.Port := 80 |} /\
      ps !! 1%nat = Some {| peers.IP := [x01; x01; x01; x01]; peers.Port := 443 |}) /\
  is_Err (peers.Unmarshal [x7f; x00; x00; x01; x00]).
Proof.
  split.
  - destruct (Unmarshal_spec [x7f; x00; x00; x01; x00; x50; x01; x01; x01; x01; x01; xbb])
      as [Hok _]; [vm_compute; discriminate|].
    destruct (Hok eq_refl) as (ps & Hrun & Hlen & Hk).
    exists ps. split; [exact Hrun|]. split; [exact Hlen|].
    split; [apply (Hk 0)|apply (Hk 1)]; vm_compute; split; congruence.
  - destruct (Unmarshal_spec [x7f; x00; x00; x01; x00]) as [_ Hbad]; [vm_compute; discriminate|].
    apply Hbad. vm_compute. discriminate.
Defined.

(** ** Piece sizes *)

(** C3. For a torrent of total length [L], piece length [P] and [n]
    pieces, the size computed for piece [i] in [0, n - 1] is
    [min(P, L - i * P)]; in particular no piece, the last one included, is
    larger than [P].  The lengths are non-negative and [n * P] fits Go's
    [int], as it does for every torrent whose lengths come from the
    32-bit fields of the metainfo file. *)
Theorem calculatePieceSize_spec (torrent : p2p.Torrent) (i : Z) :
  0 <= p2p.PieceLength torrent ->
  0 <= p2p.Length torrent <= int_max ->
  len (p2p.PiecesHashes torrent) * p2p.PieceLength torrent <= int_max ->
  0 <= i < len (p2p.PiecesHashes torrent) ->
  p2p.calculatePieceSize torrent i =
    Z.min (p2p.PieceLength torrent) (p2p.Length torrent - i * p2p.PieceLength torrent) /\
  p2p.calculatePieceSize torrent i <= p2p.PieceLength torrent.
Proof.
  intros HP HL Hfit Hi.
  set (P := p2p.PieceLength torrent) in *. set (L := p2p.Length torrent) in *.
  set (n := len (p2p.PiecesHashes torrent)) in *.
  assert (0 <= i * P /\ i * P + P <= int_max) as [Hs He] by (unfold int_max in *; nia).
  assert (p2p.calculatePieceSize torrent i = Z.min P (L - i * P)) as ->.
  { unfold p2p.calculatePieceSize, p2p.calculateBoundsForPiece.
    fold P. fold L. unfold int_mul, int_add, int_sub.
    rewrite (wrap_int_id (i * P)) by (unfold in_int, int_min, int_max in *; lia).
    rewrite (wrap_int_id (i * P + P)) by (unfold in_int, int_min, int_max in *; lia).
    destruct (i * P + P >? L) eqn:E; zbool;
      rewrite wrap_int_id by (unfold in_int, int_min, int_max in *; lia); lia. }
  split; [reflexivity|lia].
Qed.

Definition sample_torrent : p2p.Torrent :=
  {| p2p.Length := 351272965; p2p.PieceLength := 262144;
     p2p.PiecesHashes := replicate 1341 sample_hash |}.

Lemma calculatePieceSize_spec_witness :
  p2p.calculatePieceSize sample_torrent 1340 =
    Z.min (p2p.PieceLength sample_torrent)
          (p2p.Length sample_torrent - 1340 * p2p.PieceLength sample_torrent) /\
  p2p.calculatePieceSize sample_torrent 1340 <= p2p.PieceLength sample_torrent.
Proof.
  apply (calculatePieceSize_spec sample_torrent 1340);
    vm_compute; (split || idtac); congruence.
Defined.

(** ** Tracker URL *)

Definition debian_torrent : torrentfile.TorrentFile :=
  {| torrentfile.Announce := "http://bttracker.debian.org:6969/announce";
     torrentfile.InfoHash :=
       [# xd8; xf7; x39; xce; xc3; x28; x95; x6c; xcc; x5b;
          xbf; x1f; x86; xd9; xfd; xcf; xdb; xa8; xce; xb6 ];
     torrentfile.PiecesHashes := [];
     torrentfile.PieceLength := 262144;
     torrentfile.Length := 351272960;
     torrentfile.Name := "debian-10.2.0-amd64-netinst.iso" |}.

Definition debian_peer_id : Sha1Hash :=
  [# x00; x01; x02; x03; x04; x05; x06; x07; x08; x09;
     x0a; x0b; x0c; x0d; x0e; x0f; x10; x11; x12; x13 ].

(** C8. The URL [BuildTrackerUrl] returns is the announce URL followed by
    [?] and a query made of exactly seven [key=value] components, one for
    each of [compact], [downloaded], [info_hash], [left], [peer_id],
    [port] and [uploaded], with the specified values; the two 20-byte
    values are escaped byte by byte, in a way that can be undone and that
    never produces [&] or [=]; and for the Debian example the result is
    the URL the specification gives. *)
Theorem BuildTrackerUrl_spec :
  (forall (torrFile : torrentfile.TorrentFile) (peerId : Sha1Hash) (port : Z) (base : url.URL),
      url.Parse (torrentfile.Announce torrFile) = Ok base ->
      torrentfile.BuildTrackerUrl torrFile peerId port =
      Ok (url.Scheme base ++ "://" ++ url.Host base ++ url.Path base ++ "?" ++
          join_with "&"
            [ "compact=1"; "downloaded=0";
              "info_hash=" ++
                url.QueryEscape (torrentfile.hash_string (torrentfile.InfoHash torrFile));
              "left=" ++ url.Itoa (torrentfile.Length torrFile);
              "peer_id=" ++ url.QueryEscape (torrentfile.hash_string peerId);
              "port=" ++ url.Itoa port;
              "uploaded=0" ])%string) /\
  (forall (c : ascii) (raw : string),
      url.QueryEscape (String c raw) = (url.escape_byte c ++ url.QueryEscape raw)%string /\
      url.QueryUnescape (url.QueryEscape raw) = Some raw /\
      url.all_chars (fun c => negb (query_separator c)) (url.QueryEscape raw) = true) /\
  torrentfile.BuildTrackerUrl debian_torrent debian_peer_id 6789 =
  Ok "http://bttracker.debian.org:6969/announce?compact=1&downloaded=0&info_hash=%D8%F79%CE%C3%28%95l%CC%5B%BF%1F%86%D9%FD%CF%DB%A8%CE%B6&left=351272960&peer_id=%00%01%02%03%04%05%06%07%08%09%0A%0B%0C%0D%0E%0F%10%11%12%13&port=6789&uploaded=0"%string.
Proof.
  split; [|split].
  - intros torrFile peerId port base HP.
    rewrite (BuildTrackerUrl_query _ _ _ _ HP),
      Encode_tracker_params. reflexivity.
  - intros c raw. split; [|split].
    + reflexivity.
    + apply QueryUnescape_QueryEscape.
    + apply QueryEscape_no_separator.
  - vm_compute. reflexivity.
Qed.

(** The second case of the repository's test: an announce URL that does
    not parse. *)
Example BuildTrackerUrl_invalid_announce :
  torrentfile.BuildTrackerUrl
    {| torrentfile.Announce := "://example.com/invalid|path";
       torrentfile.InfoHash := torrentfile.InfoHash debian_torrent;
       torrentfile.PiecesHashes := [];
       torrentfile.PieceLength := 262144;
       torrentfile.Length := 351272960;
       torrentfile.Name := "debian-10.2.0-amd64-netinst.iso" |}
    debian_peer_id 6789 = Err ErrMissingScheme.
Proof. reflexivity. Qed.

(** ** The piece downloader *)

(** A session as [client.New] leaves it (choked), with the given bytes
    still to arrive. *)
Definition session (incoming : list byte) : client.Client :=
  {| client.Conn := {| client.incoming := incoming; client.sent := [];
                       client.writes_left := 100 |};
     client.Choked := true;
     client.Bitfield := [xff];
     client.InfoHash := sample_hash;
     client.PeerId := sample_hash |}.

Definition two_byte_piece : p2p.PieceWork :=
  {| p2p.pwIndex := 0; p2p.pwHash := sample_hash; p2p.pwLength := 2 |}.

(** A piece message for piece 0, begin 0, carrying one byte, that no
    request asked for. *)
Definition unsolicited_piece : list byte :=
  [x00; x00; x00; x0a; x07; x00; x00; x00; x00; x00; x00; x00; x00; x41].

(** C1, as stated, fails: the downloader accepts a piece message it never
    requested.  After the message above, received while choked and before
    any request, [Downloaded = 1], [Requested = 0] and [Backlog = -1]. *)
Lemma unsolicited_piece_breaks_progress :
  exists st,
    In st (map snd (fst (p2p.attemptDownloadPiece (session unsolicited_piece) two_byte_piece))) /\
    p2p.Downloaded st = 1 /\ p2p.Requested st = 0 /\ p2p.Backlog st = -1 /\
    ~ progress_inv two_byte_piece st.
Proof.
  eexists. split; [|split; [|split; [|split]]].
  - vm_compute. right. left. reflexivity.
  - reflexivity.
  - reflexivity.
  - reflexivity.
  - unfold progress_inv. cbn [p2p.Downloaded p2p.Requested p2p.Backlog]. lia.
Qed.

(** C1, amended.  Over any sequence of incoming bytes (fewer than 2^63 of
    them), at every step of a download attempt
    [0 <= requested <= piece_length] and [backlog <= MAX_BACKLOG], and no
    request is sent while the session is choked.  [downloaded <= requested]
    and [0 <= backlog] hold at every step up to which each piece message
    received answers an outstanding request (same begin, block of the
    requested length); the code does not check that a piece was asked
    for.  The trace is that of the complete attempt. *)
Theorem attemptDownloadPiece_invariants (torrentClient : client.Client) (pw : p2p.PieceWork) :
  len (client.incoming (client.Conn torrentClient)) <= int_max ->
  let tr := fst (p2p.attemptDownloadPiece torrentClient pw) in
  Forall (fun o => request_inv pw (snd o) /\ sends_unchoked o) tr /\
  (forall tr1 tr2,
      tr = tr1 ++ tr2 -> answered (p2p.pwIndex pw) tr1 ->
      Forall (fun o => progress_inv pw (snd o)) tr1) /\
  snd (p2p.attemptDownloadPiece torrentClient pw) <> p2p.OutOfFuel.
Proof.
  intros Hin. cbv zeta. unfold p2p.attemptDownloadPiece.
  destruct ((p2p.pwLength pw <? 0) || (p2p.pwLength pw >? max_alloc)) eqn:Emake.
  { cbn [fst snd]. split; [constructor|]. split; [|discriminate].
    intros tr1 tr2 Htr _. symmetry in Htr. apply app_eq_nil in Htr as [-> _]. constructor. }
  apply orb_false_iff in Emake as [E1 E2]. zbool.
  assert (0 <= p2p.pwLength pw <= max_alloc) as HL by lia.
  set (state := {| p2p.Index := p2p.pwIndex pw; p2p.Client := torrentClient;
                   p2p.Buf := make (p2p.pwLength pw);
                   p2p.Downloaded := 0; p2p.Requested := 0; p2p.Backlog := 0 |}).
  assert (safe_inv pw state) as Hsafe.
  { unfold safe_inv, request_inv, state, p2p.MaxBacklog.
    cbn [p2p.Requested p2p.Backlog p2p.Client].
    unfold int_min, int_max in *. lia. }
  assert (ghost state []) as Hghost.
  { unfold ghost, state. cbn [p2p.Downloaded p2p.Requested p2p.Backlog sum_lengths].
    repeat split; try reflexivity; try lia. constructor. }
  set (fuel := S (length (client.incoming (client.Conn torrentClient)))).
  pose proof (downloadLoop_safe pw fuel state HL Hsafe) as Htr.
  pose proof (downloadLoop_ghost pw fuel state HL Hsafe [] Hghost eq_refl) as Hg.
  pose proof (downloadLoop_total pw fuel state HL Hsafe (Nat.lt_succ_diag_r _)) as Htot.
  destruct (p2p.downloadLoop fuel pw state) as [tr res].
  cbn [fst snd] in *. split; [|split].
  - constructor; [split; [exact (proj1 Hsafe)|exact I]|].
    eapply Forall_impl; [exact Htr|]. intros o [[Hr _] Hs]. split; assumption.
  - intros tr1 tr2 Heq Hans.
    apply (hwa_prefix (p2p.pwIndex pw) pw tr1 [] tr2); [|exact Hans].
    rewrite <- Heq. cbn [holds_while_answered track fst snd].
    split; [|exact Hg]. eapply ghost_progress; [exact Hghost|exact (proj1 Hsafe)].
  - destruct res as [[[[]|e|] st]|]; try discriminate. contradiction.
Qed.

(** The peer unchokes, sends a keep-alive, and answers the one request. *)
Definition honest_stream : list byte :=
  [x00; x00; x00; x01; x01] ++ [x00; x00; x00; x00] ++
  [x00; x00; x00; x0b; x07; x00; x00; x00; x00; x00; x00; x00; x00; x41; x42].

Lemma attemptDownloadPiece_invariants_witness :
  let tr := fst (p2p.attemptDownloadPiece (session honest_stream) two_byte_piece) in
  Forall (fun o => request_inv two_byte_piece (snd o) /\ sends_unchoked o) tr /\
  (forall tr1 tr2,
      tr = tr1 ++ tr2 -> answered (p2p.pwIndex two_byte_piece) tr1 ->
      Forall (fun o => progress_inv two_byte_piece (snd o)) tr1) /\
  snd (p2p.attemptDownloadPiece (session honest_stream) two_byte_piece) <> p2p.OutOfFuel.
Proof.
  apply (attemptDownloadPiece_invariants (session honest_stream) two_byte_piece).
  vm_compute. discriminate.
Defined.

Example honest_run_is_answered :
  answered 0 (fst (p2p.attemptDownloadPiece (session honest_stream) two_byte_piece)) /\
  snd (p2p.attemptDownloadPiece (session honest_stream) two_byte_piece) =
  p2p.Done (Ok [x41; x42],
            client.with_Choked
              (client.with_Conn (session [])
                 {| client.incoming := [];
                    client.sent := [[x00; x00; x00; x0d; x06; x00; x00; x00; x00;
                                     x00; x00; x00; x00; x00; x00; x00; x02]];
                    client.writes_left := 99 |}) false).
Proof. split; [vm_compute; discriminate|vm_compute; reflexivity]. Qed.
